(** * Worker thread pool parameters of varnishd (bin/varnishd/mgt/mgt_pool.c)

    The management process keeps the tunables of the worker thread pools in
    the global structure [mgt_param] and describes each of them by an entry
    of the table [WRK_parspec]: its name, its setter, the field it writes,
    and the textual limits the setter checks.  Two setters of the file,
    [tweak_thread_pool_min] and [tweak_thread_pool_max], rewrite the limit
    of the opposite parameter after each successful update.

    The embedding is a state-passing one: a [state] is the parameter
    structure together with the (mutable) table, and a setter maps an
    argument and a state to its C return value and the state it leaves.
    The message buffer [vsb] that every setter takes is only handed on to
    [tweak_uint]; the setters of this file never write to it, and it is
    left out of the state. *)

From Stdlib Require Import ZArith QArith String List Bool Lia.
Import ListNotations.

Local Open Scope string_scope.
Local Open Scope Z_scope.

(** ** Numbers *)

(** [unsigned] is 32 bits wide. *)
Definition UINT_MAX : Z := 4294967295.

(** Wrap-around of unsigned arithmetic. *)
Definition uint_wrap (z : Z) : Z := z mod 2 ^ 32.

(** Largest [ssize_t]. *)
Definition SSIZE_MAX : Z := 9223372036854775807.

(** The limits and defaults of the table are C strings ("5", "0.01",
    "10e-3") that each setter reads as a number of its own type.  The
    embedding keeps the number a text denotes, tagged with the type it is
    read at: an unsigned count or a duration in seconds (a decimal text
    denotes a rational exactly). *)
Inductive pval : Type :=
  | UInt (u : Z)
  | Dur (q : Q).

(** ** The parameter structure *)

(** The fields of [mgt_param] that the table points into. *)
Record params : Type := mk_params {
  wthread_pools : Z;
  wthread_max : Z;
  wthread_min : Z;
  wthread_reserve : Z;
  wthread_timeout : Q;
  wthread_watchdog : Q;
  wthread_destroy_delay : Q;
  wthread_add_delay : Q;
  wthread_fail_delay : Q;
  wthread_stats_rate : Z;
  wthread_queue_limit : Z;
  wthread_stacksize : Z
}.

(** [priv]: the address of one field of [mgt_param]. *)
Inductive dest : Type :=
  | p_wthread_pools | p_wthread_max | p_wthread_min | p_wthread_reserve
  | p_wthread_timeout | p_wthread_watchdog | p_wthread_destroy_delay
  | p_wthread_add_delay | p_wthread_fail_delay | p_wthread_stats_rate
  | p_wthread_queue_limit | p_wthread_stacksize.

(** [*dest = u] through an [unsigned *] (or [ssize_t *]) pointer. *)
Definition store_int (d : dest) (u : Z) (mp : params) : params :=
  match mp with
  | mk_params pools mx mn rsv tmo wdg ddl adl fdl rate qlim stk =>
    match d with
    | p_wthread_pools => mk_params u mx mn rsv tmo wdg ddl adl fdl rate qlim stk
    | p_wthread_max => mk_params pools u mn rsv tmo wdg ddl adl fdl rate qlim stk
    | p_wthread_min => mk_params pools mx u rsv tmo wdg ddl adl fdl rate qlim stk
    | p_wthread_reserve => mk_params pools mx mn u tmo wdg ddl adl fdl rate qlim stk
    | p_wthread_stats_rate => mk_params pools mx mn rsv tmo wdg ddl adl fdl u qlim stk
    | p_wthread_queue_limit => mk_params pools mx mn rsv tmo wdg ddl adl fdl rate u stk
    | p_wthread_stacksize => mk_params pools mx mn rsv tmo wdg ddl adl fdl rate qlim u
    | _ => mp
    end
  end.

(** [*dest = u] through a [double *] pointer. *)
Definition store_double (d : dest) (q : Q) (mp : params) : params :=
  match mp with
  | mk_params pools mx mn rsv tmo wdg ddl adl fdl rate qlim stk =>
    match d with
    | p_wthread_timeout => mk_params pools mx mn rsv q wdg ddl adl fdl rate qlim stk
    | p_wthread_watchdog => mk_params pools mx mn rsv tmo q ddl adl fdl rate qlim stk
    | p_wthread_destroy_delay => mk_params pools mx mn rsv tmo wdg q adl fdl rate qlim stk
    | p_wthread_add_delay => mk_params pools mx mn rsv tmo wdg ddl q fdl rate qlim stk
    | p_wthread_fail_delay => mk_params pools mx mn rsv tmo wdg ddl adl q rate qlim stk
    | _ => mp
    end
  end.

(** ** The parameter table *)

(** The setter an entry names in its [func] field. *)
Inductive tweak_t : Type :=
  | F_tweak_uint
  | F_tweak_timeout
  | F_tweak_bytes
  | F_tweak_thread_pool_min
  | F_tweak_thread_pool_max.

Inductive flag : Type := EXPERIMENTAL | DELAYED_EFFECT.

(** [struct parspec], without the manual text [descr]. *)
Record parspec : Type := mk_parspec {
  name : string;
  func : tweak_t;
  priv : dest;
  min : option pval;
  max : option pval;
  def : option pval;
  units : option string;
  flags : list flag;
  dyn_min_reason : option string;
  dyn_max_reason : option string;
  dyn_def_reason : option string
}.

Definition WRK_parspec : list parspec :=
  [ mk_parspec "thread_pools" F_tweak_uint p_wthread_pools
      (Some (UInt 1)) None (Some (UInt 2))
      (Some "pools") [EXPERIMENTAL; DELAYED_EFFECT]
      None (Some "defined when Varnish is built") None;
    mk_parspec "thread_pool_max" F_tweak_thread_pool_max p_wthread_max
      None None (Some (UInt 5000))
      (Some "threads") [DELAYED_EFFECT]
      (Some "thread_pool_min") None None;
    mk_parspec "thread_pool_min" F_tweak_thread_pool_min p_wthread_min
      (Some (UInt 5)) None (Some (UInt 100))
      (Some "threads") [DELAYED_EFFECT]
      None (Some "thread_pool_max") None;
    mk_parspec "thread_pool_reserve" F_tweak_uint p_wthread_reserve
      None None (Some (UInt 0))
      (Some "threads") [DELAYED_EFFECT]
      None (Some "95% of thread_pool_min") None;
    mk_parspec "thread_pool_timeout" F_tweak_timeout p_wthread_timeout
      (Some (Dur 10)) None (Some (Dur 300))
      (Some "seconds") [EXPERIMENTAL; DELAYED_EFFECT]
      None None None;
    mk_parspec "thread_pool_watchdog" F_tweak_timeout p_wthread_watchdog
      (Some (Dur (1 # 10))) None (Some (Dur 60))
      (Some "seconds") [EXPERIMENTAL]
      None None None;
    mk_parspec "thread_pool_destroy_delay" F_tweak_timeout
      p_wthread_destroy_delay
      (Some (Dur (1 # 100))) None (Some (Dur 1))
      (Some "seconds") [EXPERIMENTAL; DELAYED_EFFECT]
      None None None;
    mk_parspec "thread_pool_add_delay" F_tweak_timeout p_wthread_add_delay
      (Some (Dur 0)) None (Some (Dur 0))
      (Some "seconds") [EXPERIMENTAL]
      None None None;
    mk_parspec "thread_pool_fail_delay" F_tweak_timeout p_wthread_fail_delay
      (Some (Dur (10 # 1000))) None (Some (Dur (2 # 10)))
      (Some "seconds") [EXPERIMENTAL]
      None None None;
    mk_parspec "thread_stats_rate" F_tweak_uint p_wthread_stats_rate
      (Some (UInt 0)) None (Some (UInt 10))
      (Some "requests") [EXPERIMENTAL]
      None None None;
    mk_parspec "thread_queue_limit" F_tweak_uint p_wthread_queue_limit
      (Some (UInt 0)) None (Some (UInt 20))
      None [EXPERIMENTAL]
      None None None;
    mk_parspec "thread_pool_stack" F_tweak_bytes p_wthread_stacksize
      None None None
      (Some "bytes") [DELAYED_EFFECT]
      None None (Some "sysconf(_SC_THREAD_STACK_MIN)") ].

(** ** State *)

(** The global parameter structure and the table, whose limits change
    while the program runs. *)
Record state : Type := mk_state {
  mgt_param : params;
  parspecs : list parspec
}.

(** Lookup of an entry by name: the first entry of that name. *)
Fixpoint mcf_findpar (param : string) (tbl : list parspec) : option parspec :=
  match tbl with
  | [] => None
  | pp :: tl => if String.eqb (name pp) param then Some pp
                else mcf_findpar param tl
  end.

Inductive mcf_which_e : Type := MCF_DEFAULT | MCF_MINIMUM | MCF_MAXIMUM.

Definition conf_entry (which : mcf_which_e) (v : pval) (pp : parspec)
  : parspec :=
  match pp with
  | mk_parspec n f d lo hi df un fl r1 r2 r3 =>
    match which with
    | MCF_DEFAULT => mk_parspec n f d lo hi (Some v) un fl r1 r2 r3
    | MCF_MINIMUM => mk_parspec n f d (Some v) hi df un fl r1 r2 r3
    | MCF_MAXIMUM => mk_parspec n f d lo (Some v) df un fl r1 r2 r3
    end
  end.

Fixpoint conf_table (which : mcf_which_e) (param : string) (v : pval)
    (tbl : list parspec) : list parspec :=
  match tbl with
  | [] => []
  | pp :: tl => if String.eqb (name pp) param
                then conf_entry which v pp :: tl
                else pp :: conf_table which param v tl
  end.

(** Modelled from the spec: [MCF_ParamConf] is called by this file and
    defined elsewhere.  By the specification an update "recomputes" the
    floor or the ceiling of another parameter: the call replaces the
    minimum, the maximum or the default of the entry named [param] by the
    formatted value (here always ["%u"] of an unsigned number) and touches
    nothing else.  A name that is not in the table leaves it as it is. *)
Definition MCF_ParamConf (which : mcf_which_e) (param : string) (u : Z)
    (st : state) : state :=
  mk_state (mgt_param st) (conf_table which param (UInt u) (parspecs st)).

(** ** Setters *)

Definition above_min_uint (par : parspec) (u : Z) : bool :=
  match min par with
  | None => true
  | Some (UInt lo) => lo <=? u
  | Some (Dur _) => false
  end.

Definition below_max_uint (par : parspec) (u : Z) : bool :=
  match max par with
  | None => true
  | Some (UInt hi) => u <=? hi
  | Some (Dur _) => false
  end.

(** Modelled from the spec: [tweak_uint] is named by the table and called
    by the two setters of this file, and defined elsewhere.  By the
    specification it is a typed setter that rejects out-of-range values:
    the argument is an unsigned number; it is refused, with the state as it
    was, when it is below the entry's minimum or above its maximum, and
    stored in the entry's field otherwise.  The result is the C return
    value, 0 for success. *)
Definition tweak_uint (par : parspec) (arg : pval) (st : state)
  : Z * state :=
  match arg with
  | UInt u =>
    if (0 <=? u) && (u <=? UINT_MAX)
       && above_min_uint par u && below_max_uint par u
    then (0, mk_state (store_int (priv par) u (mgt_param st)) (parspecs st))
    else (-1, st)
  | Dur _ => (-1, st)
  end.

(** Modelled from the spec: [tweak_bytes] is named by the table and defined
    elsewhere; a typed setter for a byte count, with the same range rule
    as [tweak_uint]. *)
Definition tweak_bytes (par : parspec) (arg : pval) (st : state)
  : Z * state :=
  match arg with
  | UInt u =>
    if (0 <=? u) && (u <=? SSIZE_MAX)
       && above_min_uint par u && below_max_uint par u
    then (0, mk_state (store_int (priv par) u (mgt_param st)) (parspecs st))
    else (-1, st)
  | Dur _ => (-1, st)
  end.

Definition above_min_dur (par : parspec) (q : Q) : bool :=
  match min par with
  | None => true
  | Some (Dur lo) => Qle_bool lo q
  | Some (UInt _) => false
  end.

Definition below_max_dur (par : parspec) (q : Q) : bool :=
  match max par with
  | None => true
  | Some (Dur hi) => Qle_bool q hi
  | Some (UInt _) => false
  end.

(** Modelled from the spec: [tweak_timeout] is named by the table and
    defined elsewhere; a typed setter for a duration in seconds, which
    refuses a value below the entry's minimum or above its maximum and
    stores it otherwise. *)
Definition tweak_timeout (par : parspec) (arg : pval) (st : state)
  : Z * state :=
  match arg with
  | Dur q =>
    if above_min_dur par q && below_max_dur par q
    then (0, mk_state (store_double (priv par) q (mgt_param st))
               (parspecs st))
    else (-1, st)
  | UInt _ => (-1, st)
  end.

(** The min/max values automatically update the opposites appropriate
    limit, so they don't end up crossing. *)
Definition tweak_thread_pool_min (par : parspec) (arg : pval) (st : state)
  : Z * state :=
  let (r, st1) := tweak_uint par arg st in
  if negb (r =? 0) then (-1, st1)
  else
    let st2 := MCF_ParamConf MCF_MINIMUM "thread_pool_max"
                 (wthread_min (mgt_param st1)) st1 in
    let st3 := MCF_ParamConf MCF_MAXIMUM "thread_pool_reserve"
                 (uint_wrap (wthread_min (mgt_param st2) * 950) / 1000)
                 st2 in
    (0, st3).

Definition tweak_thread_pool_max (par : parspec) (arg : pval) (st : state)
  : Z * state :=
  let (r, st1) := tweak_uint par arg st in
  if negb (r =? 0) then (-1, st1)
  else
    let st2 := MCF_ParamConf MCF_MAXIMUM "thread_pool_min"
                 (wthread_max (mgt_param st1)) st1 in
    (0, st2).

(** The call through the [func] pointer of an entry. *)
Definition call_func (f : tweak_t)
  : parspec -> pval -> state -> Z * state :=
  match f with
  | F_tweak_uint => tweak_uint
  | F_tweak_timeout => tweak_timeout
  | F_tweak_bytes => tweak_bytes
  | F_tweak_thread_pool_min => tweak_thread_pool_min
  | F_tweak_thread_pool_max => tweak_thread_pool_max
  end.

(** Modelled from the spec: the update call of the parameter store (the
    "key -> value store with typed setters"), defined outside this file.
    It finds the entry of the name and calls the entry's setter on the
    entry itself; an unknown name is an error. *)
Definition param_set (param : string) (arg : pval) (st : state)
  : Z * state :=
  match mcf_findpar param (parspecs st) with
  | Some pp => call_func (func pp) pp arg st
  | None => (-1, st)
  end.

(** A sequence of update requests, failed ones included. *)
Fixpoint run (reqs : list (string * pval)) (st : state) : state :=
  match reqs with
  | [] => st
  | (param, arg) :: tl => run tl (snd (param_set param arg st))
  end.

(** The state before any update: static storage is zeroed, and the table
    is as it is written. *)
Definition params_zero : params :=
  mk_params 0 0 0 0 0 0 0 0 0 0 0 0.

Definition st_zero : state := mk_state params_zero WRK_parspec.

(** The pool limits as the table's defaults set them, largest first. *)
Definition st_default : state :=
  run [("thread_pools", UInt 2); ("thread_pool_max", UInt 5000);
       ("thread_pool_min", UInt 100); ("thread_pool_reserve", UInt 0)]
      st_zero.

(** The default pool, then a reserve of 90 of its 100 threads. *)
Definition st_reserve_90 : state :=
  run [("thread_pool_reserve", UInt 90)] st_default.

(** ** Reading the state *)

Definition limit_min (param : string) (st : state) : option pval :=
  match mcf_findpar param (parspecs st) with
  | Some pp => min pp
  | None => None
  end.

Definition limit_max (param : string) (st : state) : option pval :=
  match mcf_findpar param (parspecs st) with
  | Some pp => max pp
  | None => None
  end.

Definition min_threads (st : state) : Z := wthread_min (mgt_param st).
Definition max_threads (st : state) : Z := wthread_max (mgt_param st).
Definition reserve (st : state) : Z := wthread_reserve (mgt_param st).
Definition pool_count (st : state) : Z := wthread_pools (mgt_param st).

(** [u] does not exceed the maximum in force for [param], if there is
    one. *)
Definition within_max (param : string) (st : state) (u : Z) : Prop :=
  match limit_max param st with
  | None => True
  | Some (UInt hi) => u <= hi
  | Some (Dur _) => False
  end.

(** [reserve <= 0.95 * min_threads], without fractions. *)
Definition reserve_capped (st : state) : Prop :=
  1000 * reserve st <= 950 * min_threads st.

(** ** Well-formed tables *)

(** An entry of a running table against the entry as it is written: the
    name, the setter and the field never change, and a limit changes only
    where the written entry announces it with a [dyn_*_reason]. *)
Definition entry_ok (q p : parspec) : Prop :=
  name p = name q /\ func p = func q /\ priv p = priv q /\
  (dyn_min_reason q = None -> min p = min q) /\
  (dyn_max_reason q = None -> max p = max q).

Definition table_ok (tbl : list parspec) : Prop :=
  forall n,
    match mcf_findpar n WRK_parspec, mcf_findpar n tbl with
    | Some q, Some p => entry_ok q p
    | None, None => True
    | _, _ => False
    end.

(** The two cross limits are in place: each of the two setters left the
    stored value as the limit of the other parameter. *)
Definition linked (st : state) : Prop :=
  limit_min "thread_pool_max" st = Some (UInt (min_threads st)) /\
  limit_max "thread_pool_min" st = Some (UInt (max_threads st)).

(** The state of a configured pool. *)
Definition pool_inv (st : state) : Prop :=
  table_ok (parspecs st) /\ linked st /\
  5 <= min_threads st <= max_threads st.

(** ** Outcomes of the setters *)

(** What a successful unsigned update has checked. *)
Definition uint_accepts (par : parspec) (u : Z) : Prop :=
  0 <= u <= UINT_MAX /\
  above_min_uint par u = true /\ below_max_uint par u = true.

(** The state a successful [thread_pool_min] update leaves. *)
Definition after_min (par : parspec) (u : Z) (st : state) : state :=
  let st1 := mk_state (store_int (priv par) u (mgt_param st))
               (parspecs st) in
  MCF_ParamConf MCF_MAXIMUM "thread_pool_reserve"
    (uint_wrap (wthread_min (mgt_param st1) * 950) / 1000)
    (MCF_ParamConf MCF_MINIMUM "thread_pool_max"
       (wthread_min (mgt_param st1)) st1).

(** The state a successful [thread_pool_max] update leaves. *)
Definition after_max (par : parspec) (u : Z) (st : state) : state :=
  let st1 := mk_state (store_int (priv par) u (mgt_param st))
               (parspecs st) in
  MCF_ParamConf MCF_MAXIMUM "thread_pool_min"
    (wthread_max (mgt_param st1)) st1.

(** ** The reserve ceiling *)

(** [wthread_min * 950 / 1000], as [tweak_thread_pool_min] computes it in
    unsigned arithmetic. *)
Definition reserve_ceiling (m : Z) : Z := uint_wrap (m * 950) / 1000.

(** The ceiling in the table is the one of the stored minimum. *)
Definition ceiling_synced (st : state) : Prop :=
  limit_max "thread_pool_reserve" st =
  Some (UInt (reserve_ceiling (min_threads st))).

(** The ceiling is in place and the stored reserve respects it. *)
Definition reserve_valid (st : state) : Prop :=
  ceiling_synced st /\ reserve st <= reserve_ceiling (min_threads st).

(** The default pool with the largest maximum an [unsigned] holds. *)
Definition st_wide : state :=
  run [("thread_pool_max", UInt UINT_MAX)] st_default.

(** * Lemmas *)

(** ** The table *)

Lemma name_conf_entry w v pp : name (conf_entry w v pp) = name pp.
Proof. destruct pp, w; reflexivity. Qed.

Lemma findpar_conf w param v tbl n :
  mcf_findpar n (conf_table w param v tbl) =
  if String.eqb n param
  then option_map (conf_entry w v) (mcf_findpar n tbl)
  else mcf_findpar n tbl.
Proof.
  induction tbl as [|pp tl IH]; simpl.
  - destruct (String.eqb n param); reflexivity.
  - destruct (String.eqb_spec (name pp) param) as [Hp|Hp]; simpl.
    + rewrite name_conf_entry.
      destruct (String.eqb_spec (name pp) n) as [Hn|Hn].
      * subst. rewrite String.eqb_refl. reflexivity.
      * destruct (String.eqb_spec n param); [congruence | reflexivity].
    + destruct (String.eqb_spec (name pp) n) as [Hn|Hn].
      * destruct (String.eqb_spec n param); [congruence | reflexivity].
      * exact IH.
Qed.

Lemma findpar_name n tbl p : mcf_findpar n tbl = Some p -> name p = n.
Proof.
  induction tbl as [|pp tl IH]; simpl; [discriminate|].
  destruct (String.eqb_spec (name pp) n); [congruence | exact IH].
Qed.

Lemma table_ok_WRK : table_ok WRK_parspec.
Proof.
  intros n. destruct (mcf_findpar n WRK_parspec); [|exact I].
  unfold entry_ok. auto.
Qed.

Lemma table_ok_lookup tbl n q :
  table_ok tbl -> mcf_findpar n WRK_parspec = Some q ->
  exists p, mcf_findpar n tbl = Some p /\ entry_ok q p.
Proof.
  intros Hok Hq. specialize (Hok n). rewrite Hq in Hok.
  destruct (mcf_findpar n tbl) as [p|]; [eauto | contradiction].
Qed.

Lemma table_ok_known tbl n p :
  table_ok tbl -> mcf_findpar n tbl = Some p ->
  exists q, mcf_findpar n WRK_parspec = Some q /\ entry_ok q p.
Proof.
  intros Hok Hp. specialize (Hok n). rewrite Hp in Hok.
  destruct (mcf_findpar n WRK_parspec) as [q|]; [eauto | contradiction].
Qed.

Lemma table_ok_conf w param v tbl :
  table_ok tbl ->
  (forall q, mcf_findpar param WRK_parspec = Some q ->
     match w with
     | MCF_DEFAULT => True
     | MCF_MINIMUM => dyn_min_reason q <> None
     | MCF_MAXIMUM => dyn_max_reason q <> None
     end) ->
  table_ok (conf_table w param v tbl).
Proof.
  intros Hok Hdyn n. specialize (Hok n). rewrite findpar_conf.
  destruct (mcf_findpar n WRK_parspec) as [q|] eqn:Hq;
    destruct (mcf_findpar n tbl) as [p|]; try contradiction;
    destruct (String.eqb_spec n param) as [->|Hne]; simpl; auto.
  specialize (Hdyn q Hq). destruct Hok as (Hn & Hf & Hd & Hlo & Hhi).
  destruct p, w; simpl in *; repeat split; auto; intros; contradiction.
Qed.

(** The entries of a well-formed table that the limits depend on. *)

Lemma entry_thread_pools tbl :
  table_ok tbl ->
  exists p, mcf_findpar "thread_pools" tbl = Some p /\
    func p = F_tweak_uint /\ priv p = p_wthread_pools /\
    min p = Some (UInt 1).
Proof.
  intros Hok.
  destruct (table_ok_lookup _ "thread_pools" _ Hok eq_refl)
    as (p & Hp & _ & Hf & Hd & Hlo & _).
  exists p. simpl in *. auto.
Qed.

Lemma entry_thread_pool_max tbl :
  table_ok tbl ->
  exists p, mcf_findpar "thread_pool_max" tbl = Some p /\
    func p = F_tweak_thread_pool_max /\ priv p = p_wthread_max /\
    max p = None.
Proof.
  intros Hok.
  destruct (table_ok_lookup _ "thread_pool_max" _ Hok eq_refl)
    as (p & Hp & _ & Hf & Hd & _ & Hhi).
  exists p. simpl in *. auto.
Qed.

Lemma entry_thread_pool_min tbl :
  table_ok tbl ->
  exists p, mcf_findpar "thread_pool_min" tbl = Some p /\
    func p = F_tweak_thread_pool_min /\ priv p = p_wthread_min /\
    min p = Some (UInt 5).
Proof.
  intros Hok.
  destruct (table_ok_lookup _ "thread_pool_min" _ Hok eq_refl)
    as (p & Hp & _ & Hf & Hd & Hlo & _).
  exists p. simpl in *. auto.
Qed.

Lemma entry_thread_pool_reserve tbl :
  table_ok tbl ->
  exists p, mcf_findpar "thread_pool_reserve" tbl = Some p /\
    func p = F_tweak_uint /\ priv p = p_wthread_reserve /\
    min p = None.
Proof.
  intros Hok.
  destruct (table_ok_lookup _ "thread_pool_reserve" _ Hok eq_refl)
    as (p & Hp & _ & Hf & Hd & Hlo & _).
  exists p. simpl in *. auto.
Qed.

Lemma entry_delay tbl n q :
  table_ok tbl ->
  mcf_findpar n WRK_parspec = Some q ->
  func q = F_tweak_timeout ->
  dyn_min_reason q = None -> dyn_max_reason q = None ->
  exists p, mcf_findpar n tbl = Some p /\
    func p = F_tweak_timeout /\ priv p = priv q /\
    min p = min q /\ max p = max q.
Proof.
  intros Hok Hq Hfq H1 H2.
  destruct (table_ok_lookup _ n q Hok Hq) as (p & Hp & _ & Hf & Hd & Hlo & Hhi).
  exists p. repeat split; auto. congruence.
Qed.

Lemma findpar_In n tbl p : mcf_findpar n tbl = Some p -> In p tbl.
Proof.
  induction tbl as [|pp tl IH]; simpl; [discriminate|].
  destruct (String.eqb (name pp) n).
  - intros [= ->]. now left.
  - intros H. right. now apply IH.
Qed.

(** ** The parameter structure *)

Lemma store_int_min u mp : wthread_min (store_int p_wthread_min u mp) = u.
Proof. destruct mp; reflexivity. Qed.

Lemma store_int_max u mp : wthread_max (store_int p_wthread_max u mp) = u.
Proof. destruct mp; reflexivity. Qed.

Lemma store_int_reserve u mp :
  wthread_reserve (store_int p_wthread_reserve u mp) = u.
Proof. destruct mp; reflexivity. Qed.

Lemma store_int_pools u mp :
  wthread_pools (store_int p_wthread_pools u mp) = u.
Proof. destruct mp; reflexivity. Qed.

Lemma store_int_other_min d u mp :
  d <> p_wthread_min -> wthread_min (store_int d u mp) = wthread_min mp.
Proof. destruct mp, d; simpl; congruence. Qed.

Lemma store_int_other_max d u mp :
  d <> p_wthread_max -> wthread_max (store_int d u mp) = wthread_max mp.
Proof. destruct mp, d; simpl; congruence. Qed.

Lemma store_int_other_reserve d u mp :
  d <> p_wthread_reserve ->
  wthread_reserve (store_int d u mp) = wthread_reserve mp.
Proof. destruct mp, d; simpl; congruence. Qed.

Lemma store_int_other_pools d u mp :
  d <> p_wthread_pools ->
  wthread_pools (store_int d u mp) = wthread_pools mp.
Proof. destruct mp, d; simpl; congruence. Qed.

Lemma store_double_ints d q mp :
  wthread_min (store_double d q mp) = wthread_min mp /\
  wthread_max (store_double d q mp) = wthread_max mp /\
  wthread_reserve (store_double d q mp) = wthread_reserve mp /\
  wthread_pools (store_double d q mp) = wthread_pools mp.
Proof. destruct mp, d; simpl; auto. Qed.

(** ** The generic setters *)

Lemma tweak_uint_inv par arg st r st' :
  tweak_uint par arg st = (r, st') ->
  (r = -1 /\ st' = st) \/
  (r = 0 /\ exists u, arg = UInt u /\ uint_accepts par u /\
     st' = mk_state (store_int (priv par) u (mgt_param st)) (parspecs st)).
Proof.
  unfold tweak_uint, uint_accepts. destruct arg as [u|q].
  - destruct ((0 <=? u) && (u <=? UINT_MAX)
              && above_min_uint par u && below_max_uint par u) eqn:E.
    + intros [= <- <-]. right. split; [reflexivity|]. exists u.
      apply andb_prop in E as [E E3]. apply andb_prop in E as [E E2].
      apply andb_prop in E as [E0 E1].
      apply Z.leb_le in E0, E1. auto.
    + intros [= <- <-]. now left.
  - intros [= <- <-]. now left.
Qed.

Lemma tweak_uint_accept par u st :
  uint_accepts par u ->
  tweak_uint par (UInt u) st =
  (0, mk_state (store_int (priv par) u (mgt_param st)) (parspecs st)).
Proof.
  intros ([H0 H1] & H2 & H3). unfold tweak_uint.
  apply Z.leb_le in H0, H1. now rewrite H0, H1, H2, H3.
Qed.

Lemma tweak_uint_refuse par u st :
  ~ uint_accepts par u -> tweak_uint par (UInt u) st = (-1, st).
Proof.
  intros Hn. destruct (tweak_uint par (UInt u) st) as [r st'] eqn:E.
  destruct (tweak_uint_inv _ _ _ _ _ E) as [[-> ->]|[_ (u' & [= <-] & Ha & _)]];
    [reflexivity | contradiction].
Qed.

Lemma tweak_uint_below_min par lo u st :
  min par = Some (UInt lo) -> u < lo ->
  tweak_uint par (UInt u) st = (-1, st).
Proof.
  intros Hlo Hu. apply tweak_uint_refuse. intros (_ & Ha & _).
  unfold above_min_uint in Ha. rewrite Hlo in Ha.
  apply Z.leb_le in Ha. lia.
Qed.

Lemma tweak_bytes_inv par arg st r st' :
  tweak_bytes par arg st = (r, st') ->
  (r = -1 /\ st' = st) \/
  (r = 0 /\ exists u, arg = UInt u /\
     st' = mk_state (store_int (priv par) u (mgt_param st)) (parspecs st)).
Proof.
  unfold tweak_bytes. destruct arg as [u|q].
  - destruct ((0 <=? u) && (u <=? SSIZE_MAX)
              && above_min_uint par u && below_max_uint par u).
    + intros [= <- <-]. right. eauto.
    + intros [= <- <-]. now left.
  - intros [= <- <-]. now left.
Qed.

Lemma tweak_timeout_inv par arg st r st' :
  tweak_timeout par arg st = (r, st') ->
  (r = -1 /\ st' = st) \/
  (r = 0 /\ exists q, arg = Dur q /\
     above_min_dur par q = true /\ below_max_dur par q = true /\
     st' = mk_state (store_double (priv par) q (mgt_param st))
             (parspecs st)).
Proof.
  unfold tweak_timeout. destruct arg as [u|q].
  - intros [= <- <-]. now left.
  - destruct (above_min_dur par q && below_max_dur par q) eqn:E.
    + intros [= <- <-]. right. apply andb_prop in E as [E1 E2]. eauto 6.
    + intros [= <- <-]. now left.
Qed.

(** ** The two setters of the file *)

Lemma tweak_thread_pool_min_inv par arg st r st' :
  tweak_thread_pool_min par arg st = (r, st') ->
  (r = -1 /\ st' = st) \/
  (r = 0 /\ exists u, arg = UInt u /\ uint_accepts par u /\
     st' = after_min par u st).
Proof.
  unfold tweak_thread_pool_min.
  destruct (tweak_uint par arg st) as [r1 st1] eqn:E.
  destruct (tweak_uint_inv _ _ _ _ _ E) as [[-> ->]|[-> (u & -> & Ha & ->)]];
    simpl; intros [= <- <-]; [now left | right; eauto].
Qed.

Lemma tweak_thread_pool_max_inv par arg st r st' :
  tweak_thread_pool_max par arg st = (r, st') ->
  (r = -1 /\ st' = st) \/
  (r = 0 /\ exists u, arg = UInt u /\ uint_accepts par u /\
     st' = after_max par u st).
Proof.
  unfold tweak_thread_pool_max.
  destruct (tweak_uint par arg st) as [r1 st1] eqn:E.
  destruct (tweak_uint_inv _ _ _ _ _ E) as [[-> ->]|[-> (u & -> & Ha & ->)]];
    simpl; intros [= <- <-]; [now left | right; eauto].
Qed.

(** ** Limits after a rewrite *)

Lemma limit_min_conf_same param u st p :
  mcf_findpar param (parspecs st) = Some p ->
  limit_min param (MCF_ParamConf MCF_MINIMUM param u st) = Some (UInt u).
Proof.
  intros Hp. unfold limit_min, MCF_ParamConf. simpl.
  rewrite findpar_conf, String.eqb_refl, Hp. destruct p; reflexivity.
Qed.

Lemma limit_max_conf_same param u st p :
  mcf_findpar param (parspecs st) = Some p ->
  limit_max param (MCF_ParamConf MCF_MAXIMUM param u st) = Some (UInt u).
Proof.
  intros Hp. unfold limit_max, MCF_ParamConf. simpl.
  rewrite findpar_conf, String.eqb_refl, Hp. destruct p; reflexivity.
Qed.

Lemma limit_min_conf_max param u st n :
  limit_min n (MCF_ParamConf MCF_MAXIMUM param u st) = limit_min n st.
Proof.
  unfold limit_min, MCF_ParamConf. simpl. rewrite findpar_conf.
  destruct (String.eqb n param); [|reflexivity].
  destruct (mcf_findpar n (parspecs st)) as [[]|]; reflexivity.
Qed.

Lemma limit_max_conf_min param u st n :
  limit_max n (MCF_ParamConf MCF_MINIMUM param u st) = limit_max n st.
Proof.
  unfold limit_max, MCF_ParamConf. simpl. rewrite findpar_conf.
  destruct (String.eqb n param); [|reflexivity].
  destruct (mcf_findpar n (parspecs st)) as [[]|]; reflexivity.
Qed.

Lemma limit_min_conf_other w param u st n :
  String.eqb n param = false ->
  limit_min n (MCF_ParamConf w param u st) = limit_min n st.
Proof.
  intros E. unfold limit_min, MCF_ParamConf. simpl.
  now rewrite findpar_conf, E.
Qed.

Lemma limit_max_conf_other w param u st n :
  String.eqb n param = false ->
  limit_max n (MCF_ParamConf w param u st) = limit_max n st.
Proof.
  intros E. unfold limit_max, MCF_ParamConf. simpl.
  now rewrite findpar_conf, E.
Qed.

Lemma findpar_conf_other w param u st n :
  String.eqb n param = false ->
  mcf_findpar n (parspecs (MCF_ParamConf w param u st)) =
  mcf_findpar n (parspecs st).
Proof. intros E. simpl. now rewrite findpar_conf, E. Qed.

Lemma table_ok_after_min par u st :
  table_ok (parspecs st) -> table_ok (parspecs (after_min par u st)).
Proof.
  intros Hok. unfold after_min. simpl.
  apply table_ok_conf; [apply table_ok_conf; [exact Hok|]|];
    intros q [= <-]; simpl; discriminate.
Qed.

Lemma table_ok_after_max par u st :
  table_ok (parspecs st) -> table_ok (parspecs (after_max par u st)).
Proof.
  intros Hok. unfold after_max. simpl.
  apply table_ok_conf; [exact Hok|].
  intros q [= <-]; simpl; discriminate.
Qed.

(** ** What the two setters leave *)

Lemma after_min_values par u st :
  priv par = p_wthread_min ->
  min_threads (after_min par u st) = u /\
  max_threads (after_min par u st) = max_threads st /\
  reserve (after_min par u st) = reserve st /\
  pool_count (after_min par u st) = pool_count st.
Proof.
  intros Hd. unfold after_min, min_threads, max_threads, reserve, pool_count.
  simpl. rewrite Hd, store_int_min, store_int_other_max,
    store_int_other_reserve, store_int_other_pools by discriminate.
  auto.
Qed.

Lemma after_min_limits par u st :
  table_ok (parspecs st) -> priv par = p_wthread_min ->
  limit_min "thread_pool_max" (after_min par u st) = Some (UInt u) /\
  limit_max "thread_pool_min" (after_min par u st) =
    limit_max "thread_pool_min" st /\
  limit_max "thread_pool_reserve" (after_min par u st) =
    Some (UInt (uint_wrap (u * 950) / 1000)).
Proof.
  intros Hok Hd.
  destruct (entry_thread_pool_max _ Hok) as (pm & Hpm & _).
  destruct (entry_thread_pool_reserve _ Hok) as (pr & Hpr & _).
  unfold after_min. simpl mgt_param. rewrite Hd, store_int_min.
  repeat split.
  - rewrite limit_min_conf_max.
    now apply limit_min_conf_same with (p := pm).
  - rewrite limit_max_conf_other by reflexivity.
    now rewrite limit_max_conf_min.
  - apply limit_max_conf_same with (p := pr).
    rewrite findpar_conf_other by reflexivity. exact Hpr.
Qed.

Lemma after_min_entries par u st n :
  String.eqb n "thread_pool_max" = false ->
  String.eqb n "thread_pool_reserve" = false ->
  mcf_findpar n (parspecs (after_min par u st)) =
  mcf_findpar n (parspecs st).
Proof.
  intros E1 E2. unfold after_min.
  rewrite findpar_conf_other by exact E2.
  now rewrite findpar_conf_other by exact E1.
Qed.

Lemma after_max_values par u st :
  priv par = p_wthread_max ->
  max_threads (after_max par u st) = u /\
  min_threads (after_max par u st) = min_threads st /\
  reserve (after_max par u st) = reserve st /\
  pool_count (after_max par u st) = pool_count st.
Proof.
  intros Hd. unfold after_max, min_threads, max_threads, reserve, pool_count.
  simpl. rewrite Hd, store_int_max, store_int_other_min,
    store_int_other_reserve, store_int_other_pools by discriminate.
  auto.
Qed.

Lemma after_max_limits par u st :
  table_ok (parspecs st) -> priv par = p_wthread_max ->
  limit_max "thread_pool_min" (after_max par u st) = Some (UInt u) /\
  limit_min "thread_pool_max" (after_max par u st) =
    limit_min "thread_pool_max" st.
Proof.
  intros Hok Hd.
  destruct (entry_thread_pool_min _ Hok) as (pm & Hpm & _).
  unfold after_max. simpl mgt_param. rewrite Hd, store_int_max.
  split.
  - now apply limit_max_conf_same with (p := pm).
  - now rewrite limit_min_conf_max.
Qed.

Lemma after_max_entries par u st n :
  String.eqb n "thread_pool_min" = false ->
  mcf_findpar n (parspecs (after_max par u st)) =
  mcf_findpar n (parspecs st).
Proof.
  intros E. unfold after_max. now rewrite findpar_conf_other by exact E.
Qed.

(** A minimum and a maximum that were checked. *)

Lemma accepts_above par lo u :
  uint_accepts par u -> min par = Some (UInt lo) -> lo <= u.
Proof.
  intros (_ & Ha & _) Hlo. unfold above_min_uint in Ha.
  rewrite Hlo in Ha. now apply Z.leb_le.
Qed.

Lemma accepts_below par hi u :
  uint_accepts par u -> max par = Some (UInt hi) -> u <= hi.
Proof.
  intros (_ & _ & Hb) Hhi. unfold below_max_uint in Hb.
  rewrite Hhi in Hb. now apply Z.leb_le.
Qed.

(** ** Updates through the table *)

Lemma param_set_inv param arg st r st' :
  table_ok (parspecs st) ->
  param_set param arg st = (r, st') ->
  (r = -1 /\ st' = st) \/
  (r = 0 /\ exists p q,
     mcf_findpar param (parspecs st) = Some p /\
     In q WRK_parspec /\ name q = param /\ entry_ok q p /\
     match func q with
     | F_tweak_uint =>
         exists u, arg = UInt u /\ uint_accepts p u /\
           st' = mk_state (store_int (priv q) u (mgt_param st)) (parspecs st)
     | F_tweak_bytes =>
         exists u, arg = UInt u /\
           st' = mk_state (store_int (priv q) u (mgt_param st)) (parspecs st)
     | F_tweak_timeout =>
         exists d, arg = Dur d /\
           st' = mk_state (store_double (priv q) d (mgt_param st))
                   (parspecs st)
     | F_tweak_thread_pool_min =>
         exists u, arg = UInt u /\ uint_accepts p u /\
           st' = after_min p u st
     | F_tweak_thread_pool_max =>
         exists u, arg = UInt u /\ uint_accepts p u /\
           st' = after_max p u st
     end).
Proof.
  intros Hok. unfold param_set.
  destruct (mcf_findpar param (parspecs st)) as [p|] eqn:Hp;
    [|intros [= <- <-]; now left].
  destruct (table_ok_known _ _ _ Hok Hp) as (q & Hq & He).
  pose proof He as (Hn & Hf & Hd & _).
  rewrite Hf. intros Hcall.
  assert (Hin : In q WRK_parspec) by eauto using findpar_In.
  assert (Hnq : name q = param) by eauto using findpar_name.
  destruct (func q) eqn:Hfq; simpl in Hcall.
  - destruct (tweak_uint_inv _ _ _ _ _ Hcall)
      as [?|[-> (u & -> & Ha & ->)]]; [now left|right].
    split; [reflexivity|]. exists p, q. rewrite Hfq, <- Hd. eauto 10.
  - destruct (tweak_timeout_inv _ _ _ _ _ Hcall)
      as [?|[-> (d & -> & _ & _ & ->)]]; [now left|right].
    split; [reflexivity|]. exists p, q. rewrite Hfq, <- Hd. eauto 10.
  - destruct (tweak_bytes_inv _ _ _ _ _ Hcall)
      as [?|[-> (u & -> & ->)]]; [now left|right].
    split; [reflexivity|]. exists p, q. rewrite Hfq, <- Hd. eauto 10.
  - destruct (tweak_thread_pool_min_inv _ _ _ _ _ Hcall)
      as [?|[-> (u & -> & Ha & ->)]]; [now left|right].
    split; [reflexivity|]. exists p, q. rewrite Hfq. eauto 10.
  - destruct (tweak_thread_pool_max_inv _ _ _ _ _ Hcall)
      as [?|[-> (u & -> & Ha & ->)]]; [now left|right].
    split; [reflexivity|]. exists p, q. rewrite Hfq. eauto 10.
Qed.

(** Case analysis on the entry of the written table an update went
    through. *)
Ltac table_cases Hin :=
  simpl in Hin;
  repeat (destruct Hin as [<-|Hin]); try contradiction.

Lemma param_set_table_ok param arg st :
  table_ok (parspecs st) ->
  table_ok (parspecs (snd (param_set param arg st))).
Proof.
  intros Hok. destruct (param_set param arg st) as [r st'] eqn:E.
  destruct (param_set_inv _ _ _ _ _ Hok E)
    as [[-> ->]|[-> (p & q & Hp & Hin & Hnq & He & Heff)]]; [exact Hok|].
  simpl. destruct (func q); destruct Heff as (u & -> & Heff).
  - destruct Heff as [_ ->]. exact Hok.
  - subst st'. exact Hok.
  - subst st'. exact Hok.
  - destruct Heff as [_ ->]. now apply table_ok_after_min.
  - destruct Heff as [_ ->]. now apply table_ok_after_max.
Qed.

Lemma pool_inv_frame st mp :
  pool_inv st ->
  wthread_min mp = wthread_min (mgt_param st) ->
  wthread_max mp = wthread_max (mgt_param st) ->
  pool_inv (mk_state mp (parspecs st)).
Proof.
  intros (Hok & [Hl1 Hl2] & Hb) E1 E2.
  unfold pool_inv, linked, limit_min, limit_max, min_threads, max_threads
    in *.
  simpl. rewrite E1, E2. auto.
Qed.

Lemma param_set_pool_inv param arg st :
  pool_inv st -> pool_inv (snd (param_set param arg st)).
Proof.
  intros Hinv. pose proof Hinv as (Hok & [Hl1 Hl2] & Hb).
  destruct (param_set param arg st) as [r st'] eqn:E.
  destruct (param_set_inv _ _ _ _ _ Hok E)
    as [[-> ->]|[-> (p & q & Hp & Hin & Hnq & He & Heff)]]; [exact Hinv|].
  destruct He as (Hn & Hf & Hd & Hlo & Hhi). simpl snd.
  table_cases Hin; simpl in Hnq, Hf, Hd, Hlo, Hhi, Heff; subst param;
    try (first [destruct Heff as (u & -> & _ & ->)
               |destruct Heff as (u & -> & ->)];
         apply pool_inv_frame;
         [exact Hinv
         |first [now apply store_int_other_min | apply store_double_ints]
         |first [now apply store_int_other_max | apply store_double_ints]]).
  - (* thread_pool_max *)
    destruct Heff as (u & -> & Ha & ->).
    destruct (after_max_values p u st Hd) as (V1 & V2 & _).
    destruct (after_max_limits p u st Hok Hd) as (L1 & L2).
    assert (Hu : min_threads st <= u).
    { apply (accepts_above p); [exact Ha|].
      unfold limit_min in Hl1. now rewrite Hp in Hl1. }
    repeat split.
    + now apply table_ok_after_max.
    + now rewrite L2, V2.
    + now rewrite L1, V1.
    + rewrite V2. lia.
    + rewrite V1, V2. exact Hu.
  - (* thread_pool_min *)
    destruct Heff as (u & -> & Ha & ->).
    destruct (after_min_values p u st Hd) as (V1 & V2 & _).
    destruct (after_min_limits p u st Hok Hd) as (L1 & L2 & _).
    assert (Hu : u <= max_threads st).
    { apply (accepts_below p); [exact Ha|].
      unfold limit_max in Hl2. now rewrite Hp in Hl2. }
    assert (H5 : 5 <= u).
    { apply (accepts_above p); [exact Ha | now apply Hlo]. }
    repeat split.
    + now apply table_ok_after_min.
    + now rewrite L1, V1.
    + now rewrite L2, V2.
    + rewrite V1. exact H5.
    + rewrite V1, V2. exact Hu.
Qed.

Lemma run_pool_inv reqs st : pool_inv st -> pool_inv (run reqs st).
Proof.
  revert st. induction reqs as [|[param arg] tl IH]; intros st Hinv;
    simpl; [exact Hinv|].
  apply IH. now apply param_set_pool_inv.
Qed.

Lemma run_table_ok reqs st :
  table_ok (parspecs st) -> table_ok (parspecs (run reqs st)).
Proof.
  revert st. induction reqs as [|[param arg] tl IH]; intros st Hok;
    simpl; [exact Hok|].
  apply IH. now apply param_set_table_ok.
Qed.

(** ** Sample states *)

Lemma pool_inv_default : pool_inv st_default.
Proof.
  split; [|split].
  - unfold st_default. apply run_table_ok. exact table_ok_WRK.
  - split; reflexivity.
  - vm_compute. split; discriminate.
Qed.

Lemma pool_inv_reserve_90 : pool_inv st_reserve_90.
Proof. unfold st_reserve_90. apply run_pool_inv. exact pool_inv_default. Qed.

(** ** Arithmetic of the reserve ceiling *)

Lemma ceiling_le m :
  0 <= m -> 1000 * (uint_wrap (m * 950) / 1000) <= 950 * m.
Proof.
  intros Hm. unfold uint_wrap.
  assert (H1 : (m * 950) mod 2 ^ 32 <= m * 950)
    by (apply Z.mod_le; lia).
  assert (H2 : 1000 * ((m * 950) mod 2 ^ 32 / 1000) <= (m * 950) mod 2 ^ 32)
    by (apply Z.mul_div_le; lia).
  lia.
Qed.

Lemma ceiling_small m :
  0 <= m -> m * 950 < 2 ^ 32 ->
  uint_wrap (m * 950) / 1000 = m * 950 / 1000.
Proof.
  intros Hm Hlt. unfold uint_wrap. rewrite Z.mod_small by lia. reflexivity.
Qed.

Lemma ceiling_is_uint m : 0 <= uint_wrap (m * 950) / 1000 <= UINT_MAX.
Proof.
  unfold uint_wrap, UINT_MAX.
  assert (H : 0 <= (m * 950) mod 2 ^ 32 < 2 ^ 32)
    by (apply Z.mod_pos_bound; lia).
  split.
  - apply Z.div_pos; lia.
  - assert ((m * 950) mod 2 ^ 32 / 1000 <= (m * 950) mod 2 ^ 32)
      by (apply Z.div_le_upper_bound; lia).
    lia.
Qed.

(** * The claims *)

(** C1, counterexample.  In the default pool (at most 5000 threads, at
    least 100) with a reserve of 90, lowering [thread_pool_min] to 10
    succeeds and sets the ceiling of the reserve to 9, but the stored
    reserve stays 90: [reserve <= 0.95 * min_threads] does not hold after
    this successful update. *)
Lemma lowering_min_leaves_reserve_above_cap :
  exists par st',
    mcf_findpar "thread_pool_min" (parspecs st_reserve_90) = Some par /\
    tweak_thread_pool_min par (UInt 10) st_reserve_90 = (0, st') /\
    limit_max "thread_pool_reserve" st' = Some (UInt 9) /\
    min_threads st' = 10 /\ reserve st' = 90 /\
    ~ reserve_capped st'.
Proof.
  eexists. eexists.
  split; [reflexivity|]. split; [reflexivity|].
  split; [reflexivity|]. split; [reflexivity|]. split; [reflexivity|].
  unfold reserve_capped. vm_compute. intros H. now apply H.
Qed.

(** C1, as amended.  In a state where the two cross limits are in place, a
    successful update of [thread_pool_min] or of [thread_pool_max] through
    its setter leaves [min_threads <= max_threads] and the cross limits in
    place: the minimum of [thread_pool_max] is the new [min_threads], the
    maximum of [thread_pool_min] is the new [max_threads].  A successful
    [thread_pool_min] update also sets the ceiling of the reserve to
    [c = (min_threads * 950 mod 2^32) / 1000], which is at most
    [0.95 * min_threads]; it leaves the stored reserve as it was, so that
    [reserve <= 0.95 * min_threads] holds afterwards when the stored
    reserve is at most [c], and holds after every later successful update
    of the reserve made under this ceiling. *)
Theorem pool_limits_stay_ordered (st st' : state) (par : parspec)
    (arg : pval) :
  table_ok (parspecs st) -> linked st ->
  (mcf_findpar "thread_pool_min" (parspecs st) = Some par ->
   tweak_thread_pool_min par arg st = (0, st') ->
   min_threads st' <= max_threads st' /\ linked st' /\
   arg = UInt (min_threads st') /\
   exists c,
     c = uint_wrap (min_threads st' * 950) / 1000 /\
     limit_max "thread_pool_reserve" st' = Some (UInt c) /\
     1000 * c <= 950 * min_threads st' /\
     reserve st' = reserve st /\
     (reserve st <= c -> reserve_capped st') /\
     (forall rp r st'',
        mcf_findpar "thread_pool_reserve" (parspecs st') = Some rp ->
        tweak_uint rp (UInt r) st' = (0, st'') ->
        reserve st'' = r /\ reserve_capped st'')) /\
  (mcf_findpar "thread_pool_max" (parspecs st) = Some par ->
   tweak_thread_pool_max par arg st = (0, st') ->
   min_threads st' <= max_threads st' /\ linked st' /\
   arg = UInt (max_threads st')).
Proof.
  intros Hok [Hl1 Hl2]. split; intros Hp Hcall.
  - destruct (entry_thread_pool_min _ Hok) as (p & Hp' & _ & Hd & Hlo).
    rewrite Hp in Hp'. injection Hp' as <-.
    destruct (tweak_thread_pool_min_inv _ _ _ _ _ Hcall)
      as [[? _]|[_ (u & -> & Ha & ->)]]; [discriminate|].
    destruct (after_min_values par u st Hd) as (V1 & V2 & V3 & _).
    destruct (after_min_limits par u st Hok Hd) as (L1 & L2 & L3).
    assert (Hu : u <= max_threads st).
    { apply (accepts_below par); [exact Ha|].
      unfold limit_max in Hl2. now rewrite Hp in Hl2. }
    assert (H5 : 5 <= u) by (apply (accepts_above par); assumption).
    pose proof (ceiling_le u ltac:(lia)) as Hc.
    pose proof (table_ok_after_min par u st Hok) as Hok'.
    split; [lia|]. split; [split; congruence|]. split; [congruence|].
    exists (uint_wrap (u * 950) / 1000). rewrite V1.
    split; [reflexivity|]. split; [exact L3|]. split; [exact Hc|].
    split; [exact V3|]. split.
    + intros Hr. unfold reserve_capped. lia.
    + intros rp r st'' Hrp Hset.
      destruct (tweak_uint_inv _ _ _ _ _ Hset)
        as [[? _]|[_ (r' & [= <-] & Hr & ->)]]; [discriminate|].
      destruct (entry_thread_pool_reserve _ Hok') as (p & Hp2 & _ & Hd2 & _).
      rewrite Hrp in Hp2. injection Hp2 as <-.
      assert (Hr' : r <= uint_wrap (u * 950) / 1000).
      { apply (accepts_below rp); [exact Hr|].
        unfold limit_max in L3. now rewrite Hrp in L3. }
      unfold reserve_capped, reserve, min_threads in *.
      cbn [mgt_param]. rewrite Hd2.
      rewrite store_int_reserve, store_int_other_min by discriminate.
      split; [reflexivity | lia].
  - destruct (entry_thread_pool_max _ Hok) as (p & Hp' & _ & Hd & _).
    rewrite Hp in Hp'. injection Hp' as <-.
    destruct (tweak_thread_pool_max_inv _ _ _ _ _ Hcall)
      as [[? _]|[_ (u & -> & Ha & ->)]]; [discriminate|].
    destruct (after_max_values par u st Hd) as (V1 & V2 & _).
    destruct (after_max_limits par u st Hok Hd) as (L1 & L2).
    assert (Hu : min_threads st <= u).
    { apply (accepts_above par); [exact Ha|].
      unfold limit_min in Hl1. now rewrite Hp in Hl1. }
    split; [lia|]. split; [split; congruence | congruence].
Qed.

Lemma pool_limits_stay_ordered_witness :
  table_ok (parspecs st_default) /\ linked st_default /\
  (let st' := snd (param_set "thread_pool_min" (UInt 50) st_default) in
   min_threads st' <= max_threads st' /\ linked st') /\
  (let st' := snd (param_set "thread_pool_max" (UInt 200) st_default) in
   min_threads st' <= max_threads st' /\ linked st').
Proof.
  split; [apply pool_inv_default|]. split; [apply pool_inv_default|].
  split.
  - refine (let H := proj1 (pool_limits_stay_ordered st_default _ _
                              (UInt 50) _ _) eq_refl eq_refl in
            conj (proj1 H) (proj1 (proj2 H)));
      apply pool_inv_default.
  - refine (let H := proj2 (pool_limits_stay_ordered st_default _ _
                              (UInt 200) _ _) eq_refl eq_refl in
            conj (proj1 H) (proj1 (proj2 H)));
      apply pool_inv_default.
Defined.

(** C2.  When the range validation [tweak_uint] of a [thread_pool_min] or
    [thread_pool_max] update fails, the setter returns -1 and the state is
    the one before the call: the stored value and every limit of the
    table, the dependent ones included, are as they were. *)
Theorem failed_update_changes_nothing (par : parspec) (arg : pval)
    (st : state) :
  fst (tweak_uint par arg st) <> 0 ->
  tweak_thread_pool_min par arg st = (-1, st) /\
  tweak_thread_pool_max par arg st = (-1, st).
Proof.
  intros Hfail. unfold tweak_thread_pool_min, tweak_thread_pool_max.
  destruct (tweak_uint par arg st) as [r st1] eqn:E. simpl in Hfail.
  destruct (tweak_uint_inv _ _ _ _ _ E) as [[-> ->]|[-> _]];
    [split; reflexivity | contradiction].
Qed.

Lemma failed_update_changes_nothing_witness :
  exists par,
    mcf_findpar "thread_pool_min" (parspecs st_default) = Some par /\
    fst (tweak_uint par (UInt 6000) st_default) <> 0 /\
    tweak_thread_pool_min par (UInt 6000) st_default = (-1, st_default) /\
    tweak_thread_pool_max par (UInt 6000) st_default = (-1, st_default).
Proof.
  eexists. split; [reflexivity|].
  split; [vm_compute; discriminate|].
  apply failed_update_changes_nothing. vm_compute; discriminate.
Defined.

(** When the ceiling of the reserve is [c], the reserve setter accepts
    exactly the values from 0 to [c]. *)
Lemma reserve_accept_iff st rp c r :
  table_ok (parspecs st) ->
  mcf_findpar "thread_pool_reserve" (parspecs st) = Some rp ->
  limit_max "thread_pool_reserve" st = Some (UInt c) ->
  c <= UINT_MAX ->
  (fst (tweak_uint rp (UInt r) st) = 0 <-> 0 <= r <= c).
Proof.
  intros Hok Hrp Hc Hmax.
  destruct (entry_thread_pool_reserve _ Hok) as (p & Hp & _ & Hd & Hlo).
  rewrite Hrp in Hp. injection Hp as <-.
  unfold limit_max in Hc. rewrite Hrp in Hc.
  split.
  - intros Hfst. destruct (tweak_uint rp (UInt r) st) as [x st'] eqn:E.
    simpl in Hfst. subst x.
    destruct (tweak_uint_inv _ _ _ _ _ E)
      as [[? _]|[_ (r' & [= <-] & Hr & _)]]; [discriminate|].
    pose proof (accepts_below _ _ _ Hr Hc). destruct Hr as [[? ?] _]. lia.
  - intros Hr. rewrite tweak_uint_accept; [reflexivity|].
    unfold uint_accepts, above_min_uint, below_max_uint.
    rewrite Hlo, Hc. repeat split; try lia; try (apply Z.leb_le; lia).
Qed.

(** C3, counterexample.  With a reserve of 90 stored, setting
    [thread_pool_reserve] to 0 (the default of the table) is a valid
    update, and the stored reserve is 0 afterwards, below 5. *)
Lemma reserve_zero_is_stored :
  exists par st',
    mcf_findpar "thread_pool_reserve" (parspecs st_reserve_90) = Some par /\
    tweak_uint par (UInt 0) st_reserve_90 = (0, st') /\
    reserve st' = 0 /\ ~ 5 <= reserve st'.
Proof.
  eexists. eexists.
  split; [reflexivity|]. split; [reflexivity|]. split; [reflexivity|].
  vm_compute. intros H. now apply H.
Qed.

(** C3, as amended.  The reserve setter has no floor.  A successful
    update of [thread_pool_reserve] stores the requested value [r] as it
    is, with [0 <= r] and [r] at most the ceiling in force; under a
    ceiling [c] it accepts exactly the values from 0 to [c], those below
    5 included.  No update of any parameter makes a non-negative stored
    reserve negative. *)
Theorem reserve_has_no_floor (st : state) (par : parspec) :
  table_ok (parspecs st) ->
  mcf_findpar "thread_pool_reserve" (parspecs st) = Some par ->
  (forall r st',
     tweak_uint par (UInt r) st = (0, st') ->
     reserve st' = r /\ 0 <= r /\
     forall c, limit_max "thread_pool_reserve" st = Some (UInt c) ->
               r <= c) /\
  (forall c r,
     limit_max "thread_pool_reserve" st = Some (UInt c) ->
     c <= UINT_MAX ->
     (fst (tweak_uint par (UInt r) st) = 0 <-> 0 <= r <= c)) /\
  (forall param arg,
     0 <= reserve st -> 0 <= reserve (snd (param_set param arg st))).
Proof.
  intros Hok Hp.
  destruct (entry_thread_pool_reserve _ Hok) as (p & Hp' & _ & Hd & Hlo).
  rewrite Hp in Hp'. injection Hp' as <-.
  split; [|split].
  - intros r st' Hset.
    destruct (tweak_uint_inv _ _ _ _ _ Hset)
      as [[? _]|[_ (r' & [= <-] & Hr & ->)]]; [discriminate|].
    split; [|split].
    + unfold reserve. simpl. rewrite Hd. apply store_int_reserve.
    + destruct Hr as [[? ?] _]. assumption.
    + intros c Hc. apply (accepts_below par); [exact Hr|].
      unfold limit_max in Hc. now rewrite Hp in Hc.
  - intros c r Hc Hmax. now apply reserve_accept_iff.
  - intros param arg Hpos.
    destruct (param_set param arg st) as [x st'] eqn:E.
    destruct (param_set_inv _ _ _ _ _ Hok E)
      as [[-> ->]|[-> (p & q & Hq & Hin & Hnq & He & Heff)]]; [exact Hpos|].
    destruct He as (Hn & Hf & Hd' & _). simpl snd.
    table_cases Hin; simpl in Heff;
      try (destruct Heff as (u & -> & [[? ?] _] & ->);
           unfold reserve in *; simpl;
           first [rewrite store_int_other_reserve by discriminate; assumption
                 |rewrite store_int_reserve; assumption]);
      try (destruct Heff as (u & -> & ->); unfold reserve in *; simpl;
           first [rewrite store_int_other_reserve by discriminate; assumption
                 |now rewrite (proj1 (proj2 (proj2 (store_double_ints _ _ _))))]).
    + destruct Heff as (u & -> & _ & ->).
      simpl in Hd'.
      now rewrite (proj1 (proj2 (proj2 (after_max_values p u st Hd')))).
    + destruct Heff as (u & -> & _ & ->).
      simpl in Hd'.
      now rewrite (proj1 (proj2 (proj2 (after_min_values p u st Hd')))).
Qed.

Lemma reserve_has_no_floor_witness :
  exists par,
    table_ok (parspecs st_default) /\
    mcf_findpar "thread_pool_reserve" (parspecs st_default) = Some par /\
    (fst (tweak_uint par (UInt 3) st_default) = 0 <-> 0 <= 3 <= 95) /\
    0 <= reserve (snd (param_set "thread_pool_reserve" (UInt 3) st_default)).
Proof.
  eexists. split; [apply pool_inv_default|]. split; [reflexivity|].
  pose proof (reserve_has_no_floor st_default _
                (proj1 pool_inv_default) eq_refl) as (_ & H2 & H3).
  split.
  - apply (H2 95 3); [reflexivity | vm_compute; discriminate].
  - apply H3. vm_compute; discriminate.
Defined.

(** C4.  A successful update of [thread_pool_min] to [m] sets the maximum
    of [thread_pool_reserve] to [m * 950 / 1000] in unsigned arithmetic:
    the product taken modulo [2^32], divided by 1000.  While
    [m * 950 < 2^32] this is the floor of [0.95 * m].  A reserve [r] is
    then accepted exactly when it is at most this ceiling. *)
Theorem reserve_ceiling_after_min_update (st st' : state) (par : parspec)
    (m : Z) :
  table_ok (parspecs st) ->
  mcf_findpar "thread_pool_min" (parspecs st) = Some par ->
  tweak_thread_pool_min par (UInt m) st = (0, st') ->
  let c := uint_wrap (m * 950) / 1000 in
  limit_max "thread_pool_reserve" st' = Some (UInt c) /\
  (m * 950 < 2 ^ 32 ->
   c = m * 950 / 1000 /\ 1000 * c <= 950 * m < 1000 * (c + 1)) /\
  (forall rp r,
     mcf_findpar "thread_pool_reserve" (parspecs st') = Some rp ->
     0 <= r ->
     (fst (tweak_uint rp (UInt r) st') = 0 <-> r <= c)).
Proof.
  intros Hok Hp Hcall c.
  destruct (entry_thread_pool_min _ Hok) as (p & Hp' & _ & Hd & Hlo).
  rewrite Hp in Hp'. injection Hp' as <-.
  destruct (tweak_thread_pool_min_inv _ _ _ _ _ Hcall)
    as [[? _]|[_ (u & [= <-] & Ha & ->)]]; [discriminate|].
  destruct (after_min_limits par m st Hok Hd) as (_ & _ & L3).
  assert (H5 : 5 <= m) by (apply (accepts_above par); assumption).
  split; [exact L3|]. split.
  - intros Hsmall. subst c. rewrite ceiling_small by lia.
    split; [reflexivity|].
    pose proof (Z.div_mod (m * 950) 1000 ltac:(lia)).
    pose proof (Z.mod_pos_bound (m * 950) 1000 ltac:(lia)).
    lia.
  - intros rp r Hrp Hr.
    pose proof (table_ok_after_min par m st Hok) as Hok'.
    pose proof (ceiling_is_uint m) as [_ Hcmax]. fold c in Hcmax.
    rewrite (reserve_accept_iff _ rp c r Hok' Hrp L3 Hcmax). lia.
Qed.

Lemma reserve_ceiling_after_min_update_witness :
  exists par st',
    table_ok (parspecs st_default) /\
    mcf_findpar "thread_pool_min" (parspecs st_default) = Some par /\
    tweak_thread_pool_min par (UInt 50) st_default = (0, st') /\
    limit_max "thread_pool_reserve" st' = Some (UInt 47).
Proof.
  eexists. eexists. split; [apply pool_inv_default|].
  split; [reflexivity|]. split; [reflexivity|].
  exact (proj1 (reserve_ceiling_after_min_update st_default _ _ 50
                  (proj1 pool_inv_default) eq_refl eq_refl)).
Defined.

(** C5, counterexample.  In the default state the pool count is 2; the
    setter of [thread_pools] accepts the lower value 1, and the stored
    pool count decreases to 1. *)
Lemma pool_count_is_lowered :
  exists par st',
    mcf_findpar "thread_pools" (parspecs st_default) = Some par /\
    pool_count st_default = 2 /\
    tweak_uint par (UInt 1) st_default = (0, st') /\
    pool_count st' = 1 /\ pool_count st' < pool_count st_default.
Proof.
  eexists. eexists.
  split; [reflexivity|]. split; [reflexivity|]. split; [reflexivity|].
  split; reflexivity.
Qed.

(** C5, as amended.  A request to lower the pool count is not refused by
    the setter.  [thread_pools] is set by the generic unsigned setter,
    which accepts every value from 1 up to the maximum in force whatever
    the stored value is, and stores it: the stored pool count decreases
    when a lower value is set.  Only a value below 1, or above the
    maximum, is refused. *)
Theorem thread_pools_accepts_lower (st : state) (par : parspec) (u : Z) :
  table_ok (parspecs st) ->
  mcf_findpar "thread_pools" (parspecs st) = Some par ->
  (1 <= u <= UINT_MAX -> within_max "thread_pools" st u ->
   exists st', tweak_uint par (UInt u) st = (0, st') /\
               pool_count st' = u) /\
  (u < 1 -> tweak_uint par (UInt u) st = (-1, st)).
Proof.
  intros Hok Hp.
  destruct (entry_thread_pools _ Hok) as (p & Hp' & _ & Hd & Hlo).
  rewrite Hp in Hp'. injection Hp' as <-.
  split.
  - intros Hu Hmax. eexists. split.
    + apply tweak_uint_accept. unfold uint_accepts.
      split; [lia|]. split.
      * unfold above_min_uint. rewrite Hlo. apply Z.leb_le. lia.
      * unfold within_max, limit_max in Hmax. rewrite Hp in Hmax.
        unfold below_max_uint.
        destruct (max par) as [[hi|d]|]; [apply Z.leb_le|..];
          easy.
    + unfold pool_count. simpl. rewrite Hd. apply store_int_pools.
  - intros Hu. now apply (tweak_uint_below_min par 1).
Qed.

Lemma thread_pools_accepts_lower_witness :
  exists par st',
    table_ok (parspecs st_default) /\
    mcf_findpar "thread_pools" (parspecs st_default) = Some par /\
    1 <= 1 <= UINT_MAX /\ within_max "thread_pools" st_default 1 /\
    tweak_uint par (UInt 1) st_default = (0, st') /\ pool_count st' = 1.
Proof.
  destruct (proj1 (thread_pools_accepts_lower st_default _ 1
                     (proj1 pool_inv_default) eq_refl))
    as (st' & H1 & H2).
  - vm_compute. split; discriminate.
  - exact I.
  - eexists. exists st'. split; [apply pool_inv_default|].
    split; [reflexivity|]. split; [vm_compute; split; discriminate|].
    split; [exact I|]. split; [exact H1 | exact H2].
Defined.

(** ** The pool count across updates *)

Lemma param_set_pool_count param arg st :
  table_ok (parspecs st) -> 1 <= pool_count st ->
  1 <= pool_count (snd (param_set param arg st)).
Proof.
  intros Hok Hpos.
  destruct (param_set param arg st) as [x st'] eqn:E.
  destruct (param_set_inv _ _ _ _ _ Hok E)
    as [[-> ->]|[-> (p & q & Hq & Hin & Hnq & He & Heff)]]; [exact Hpos|].
  destruct He as (Hn & Hf & Hd & Hlo & _). simpl snd.
  table_cases Hin; simpl in Heff, Hd, Hlo;
    try (destruct Heff as (u & -> & Ha & ->);
         unfold pool_count in *; simpl;
         rewrite store_int_other_pools by discriminate; assumption);
    try (destruct Heff as (u & -> & ->); unfold pool_count in *; simpl;
         first [rewrite store_int_other_pools by discriminate; assumption
               |now rewrite (proj2 (proj2 (proj2 (store_double_ints _ _ _))))]).
  - destruct Heff as (u & -> & Ha & ->).
    unfold pool_count. simpl. rewrite store_int_pools.
    apply (accepts_above p); [exact Ha | now apply Hlo].
  - destruct Heff as (u & -> & _ & ->).
    now rewrite (proj2 (proj2 (proj2 (after_max_values p u st Hd)))).
  - destruct Heff as (u & -> & _ & ->).
    now rewrite (proj2 (proj2 (proj2 (after_min_values p u st Hd)))).
Qed.

Lemma run_pool_count reqs st :
  table_ok (parspecs st) -> 1 <= pool_count st ->
  1 <= pool_count (run reqs st).
Proof.
  revert st. induction reqs as [|[param arg] tl IH]; intros st Hok Hpos;
    simpl; [exact Hpos|].
  apply IH; [now apply param_set_table_ok | now apply param_set_pool_count].
Qed.

(** ** The minimum across updates *)

Lemma param_set_min_floor param arg st :
  table_ok (parspecs st) -> 5 <= min_threads st ->
  5 <= min_threads (snd (param_set param arg st)).
Proof.
  intros Hok Hpos.
  destruct (param_set param arg st) as [x st'] eqn:E.
  destruct (param_set_inv _ _ _ _ _ Hok E)
    as [[-> ->]|[-> (p & q & Hq & Hin & Hnq & He & Heff)]]; [exact Hpos|].
  destruct He as (Hn & Hf & Hd & Hlo & _). simpl snd.
  table_cases Hin; simpl in Heff, Hd, Hlo;
    try (destruct Heff as (u & -> & Ha & ->);
         unfold min_threads in *; simpl;
         rewrite store_int_other_min by discriminate; assumption);
    try (destruct Heff as (u & -> & ->); unfold min_threads in *; simpl;
         first [rewrite store_int_other_min by discriminate; assumption
               |now rewrite (proj1 (store_double_ints _ _ _))]).
  - destruct Heff as (u & -> & _ & ->).
    now rewrite (proj1 (proj2 (after_max_values p u st Hd))).
  - destruct Heff as (u & -> & Ha & ->).
    rewrite (proj1 (after_min_values p u st Hd)).
    apply (accepts_above p); [exact Ha | now apply Hlo].
Qed.

Lemma run_min_floor reqs st :
  table_ok (parspecs st) -> 5 <= min_threads st ->
  5 <= min_threads (run reqs st).
Proof.
  revert st. induction reqs as [|[param arg] tl IH]; intros st Hok Hpos;
    simpl; [exact Hpos|].
  apply IH; [now apply param_set_table_ok | now apply param_set_min_floor].
Qed.

(** C6.  The setter of [thread_pool_min] refuses every value below 5, its
    static minimum; a successful update leaves [min_threads >= 5], and
    [min_threads >= 5] is kept by every sequence of updates.  From a
    configured pool, [max_threads >= min_threads >= 5 > 0] holds after
    every sequence of updates: the minimum of [thread_pool_max] is the
    stored [min_threads], so a successful [thread_pool_max] update stores
    at least that. *)
Theorem min_threads_at_least_5 (st : state) (par : parspec) :
  table_ok (parspecs st) ->
  mcf_findpar "thread_pool_min" (parspecs st) = Some par ->
  (forall u, u < 5 -> tweak_thread_pool_min par (UInt u) st = (-1, st)) /\
  (forall arg st',
     tweak_thread_pool_min par arg st = (0, st') -> 5 <= min_threads st') /\
  (5 <= min_threads st -> forall reqs, 5 <= min_threads (run reqs st)) /\
  (pool_inv st ->
   forall reqs,
     5 <= min_threads (run reqs st) <= max_threads (run reqs st) /\
     0 < max_threads (run reqs st)) /\
  (linked st ->
   forall pmax arg st',
     mcf_findpar "thread_pool_max" (parspecs st) = Some pmax ->
     tweak_thread_pool_max pmax arg st = (0, st') ->
     min_threads st <= max_threads st').
Proof.
  intros Hok Hp.
  destruct (entry_thread_pool_min _ Hok) as (p & Hp' & _ & Hd & Hlo).
  rewrite Hp in Hp'. injection Hp' as <-.
  split; [|split; [|split; [|split]]].
  - intros u Hu. unfold tweak_thread_pool_min.
    now rewrite (tweak_uint_below_min par 5 u st Hlo Hu).
  - intros arg st' Hcall.
    destruct (tweak_thread_pool_min_inv _ _ _ _ _ Hcall)
      as [[? _]|[_ (u & -> & Ha & ->)]]; [discriminate|].
    rewrite (proj1 (after_min_values par u st Hd)).
    now apply (accepts_above par).
  - intros Hpos reqs. now apply run_min_floor.
  - intros Hinv reqs.
    destruct (run_pool_inv reqs st Hinv) as (_ & _ & Hb). lia.
  - intros [Hl1 _] pmax arg st' Hpm Hcall.
    destruct (entry_thread_pool_max _ Hok) as (p & Hp' & _ & Hdm & _).
    rewrite Hpm in Hp'. injection Hp' as <-.
    destruct (tweak_thread_pool_max_inv _ _ _ _ _ Hcall)
      as [[? _]|[_ (u & -> & Ha & ->)]]; [discriminate|].
    rewrite (proj1 (after_max_values pmax u st Hdm)).
    apply (accepts_above pmax); [exact Ha|].
    unfold limit_min in Hl1. now rewrite Hpm in Hl1.
Qed.

Lemma min_threads_at_least_5_witness :
  exists par,
    table_ok (parspecs st_default) /\
    mcf_findpar "thread_pool_min" (parspecs st_default) = Some par /\
    tweak_thread_pool_min par (UInt 4) st_default = (-1, st_default) /\
    pool_inv st_default /\
    (let st' := run [("thread_pool_min", UInt 4); ("thread_pool_max", UInt 7);
                     ("thread_pool_max", UInt 100); ("thread_pool_min", UInt 5)]
                  st_default in
     5 <= min_threads st' /\ 0 < max_threads st').
Proof.
  eexists. split; [apply pool_inv_default|]. split; [reflexivity|].
  pose proof (min_threads_at_least_5 st_default _
                (proj1 pool_inv_default) eq_refl) as (H1 & _ & _ & H3 & _).
  split; [apply H1; vm_compute; reflexivity|].
  split; [exact pool_inv_default|].
  destruct (H3 pool_inv_default
              [("thread_pool_min", UInt 4); ("thread_pool_max", UInt 7);
               ("thread_pool_max", UInt 100); ("thread_pool_min", UInt 5)])
    as [[Hmin _] Hmax].
  split; [exact Hmin | exact Hmax].
Defined.

(** C8.  The setter of [thread_pools] refuses every value below 1, a
    successful update leaves [pool_count >= 1], and [pool_count >= 1] is
    kept by every sequence of updates. *)
Theorem pool_count_at_least_1 (st : state) (par : parspec) :
  table_ok (parspecs st) ->
  mcf_findpar "thread_pools" (parspecs st) = Some par ->
  (forall u, u < 1 -> tweak_uint par (UInt u) st = (-1, st)) /\
  (forall arg st',
     tweak_uint par arg st = (0, st') -> 1 <= pool_count st') /\
  (1 <= pool_count st -> forall reqs, 1 <= pool_count (run reqs st)).
Proof.
  intros Hok Hp.
  destruct (entry_thread_pools _ Hok) as (p & Hp' & _ & Hd & Hlo).
  rewrite Hp in Hp'. injection Hp' as <-.
  split; [|split].
  - intros u Hu. now apply (tweak_uint_below_min par 1).
  - intros arg st' Hcall.
    destruct (tweak_uint_inv _ _ _ _ _ Hcall)
      as [[? _]|[_ (u & -> & Ha & ->)]]; [discriminate|].
    unfold pool_count. simpl. rewrite Hd, store_int_pools.
    now apply (accepts_above par).
  - intros Hpos reqs. now apply run_pool_count.
Qed.

Lemma pool_count_at_least_1_witness :
  exists par,
    table_ok (parspecs st_default) /\
    mcf_findpar "thread_pools" (parspecs st_default) = Some par /\
    tweak_uint par (UInt 0) st_default = (-1, st_default) /\
    1 <= pool_count st_default /\
    1 <= pool_count
           (run [("thread_pools", UInt 0); ("thread_pools", UInt 8);
                 ("thread_pools", UInt 1)] st_default).
Proof.
  eexists. split; [apply pool_inv_default|]. split; [reflexivity|].
  pose proof (pool_count_at_least_1 st_default _
                (proj1 pool_inv_default) eq_refl) as (H1 & _ & H3).
  split; [apply H1; vm_compute; reflexivity|].
  split; [vm_compute; discriminate|].
  apply H3. vm_compute; discriminate.
Defined.

(** ** Delays *)

Lemma timeout_accept_iff par lo q st :
  min par = Some (Dur lo) -> max par = None ->
  (fst (tweak_timeout par (Dur q) st) = 0 <-> (lo <= q)%Q).
Proof.
  intros Hlo Hhi. unfold tweak_timeout, above_min_dur, below_max_dur.
  rewrite Hlo, Hhi. rewrite <- Qle_bool_iff.
  destruct (Qle_bool lo q); simpl; split; intros H;
    try reflexivity; discriminate.
Qed.

Lemma timeout_refuse par lo q st :
  min par = Some (Dur lo) -> (q < lo)%Q ->
  tweak_timeout par (Dur q) st = (-1, st).
Proof.
  intros Hlo Hq. unfold tweak_timeout, above_min_dur. rewrite Hlo.
  destruct (Qle_bool lo q) eqn:E; [|reflexivity].
  apply Qle_bool_iff in E. apply Qle_not_lt in E. contradiction.
Qed.

(** C7, counterexample.  0 and 0.005 are non-negative, and the setter of
    [thread_pool_destroy_delay] refuses both: its minimum is 0.01. *)
Lemma destroy_delay_refuses_zero :
  exists par,
    mcf_findpar "thread_pool_destroy_delay" (parspecs st_default)
      = Some par /\
    (0 <= 0)%Q /\
    tweak_timeout par (Dur 0) st_default = (-1, st_default) /\
    (0 <= 5 # 1000)%Q /\
    tweak_timeout par (Dur (5 # 1000)) st_default = (-1, st_default).
Proof.
  eexists. split; [reflexivity|].
  split; [apply Qle_refl|]. split; [reflexivity|].
  split; [vm_compute; discriminate | reflexivity].
Qed.

(** C7, as amended.  Each of the three delay setters accepts exactly the
    values at or above the minimum of its entry: 0.01 for
    [thread_pool_destroy_delay], 0 for [thread_pool_add_delay], 10e-3 for
    [thread_pool_fail_delay]; none has a maximum.  So every negative value
    is refused by all three, and every non-negative value is accepted by
    [thread_pool_add_delay] only. *)
Theorem delay_setters_minimum (st : state) (q : Q) :
  table_ok (parspecs st) ->
  (forall par,
     mcf_findpar "thread_pool_destroy_delay" (parspecs st) = Some par ->
     (fst (tweak_timeout par (Dur q) st) = 0 <-> (1 # 100 <= q)%Q)) /\
  (forall par,
     mcf_findpar "thread_pool_add_delay" (parspecs st) = Some par ->
     (fst (tweak_timeout par (Dur q) st) = 0 <-> (0 <= q)%Q)) /\
  (forall par,
     mcf_findpar "thread_pool_fail_delay" (parspecs st) = Some par ->
     (fst (tweak_timeout par (Dur q) st) = 0 <-> (10 # 1000 <= q)%Q)) /\
  (forall param par,
     In param ["thread_pool_destroy_delay"; "thread_pool_add_delay";
               "thread_pool_fail_delay"] ->
     mcf_findpar param (parspecs st) = Some par ->
     (q < 0)%Q ->
     tweak_timeout par (Dur q) st = (-1, st)).
Proof.
  intros Hok.
  destruct (entry_delay _ "thread_pool_destroy_delay" _ Hok eq_refl
              eq_refl eq_refl eq_refl) as (p1 & Hp1 & _ & _ & Hlo1 & Hhi1).
  destruct (entry_delay _ "thread_pool_add_delay" _ Hok eq_refl
              eq_refl eq_refl eq_refl) as (p2 & Hp2 & _ & _ & Hlo2 & Hhi2).
  destruct (entry_delay _ "thread_pool_fail_delay" _ Hok eq_refl
              eq_refl eq_refl eq_refl) as (p3 & Hp3 & _ & _ & Hlo3 & Hhi3).
  simpl in Hlo1, Hhi1, Hlo2, Hhi2, Hlo3, Hhi3.
  split; [|split; [|split]].
  - intros par Hp. rewrite Hp in Hp1. injection Hp1 as ->.
    now apply timeout_accept_iff.
  - intros par Hp. rewrite Hp in Hp2. injection Hp2 as ->.
    now apply timeout_accept_iff.
  - intros par Hp. rewrite Hp in Hp3. injection Hp3 as ->.
    now apply timeout_accept_iff.
  - intros param par Hin Hp Hneg.
    destruct Hin as [<-|[<-|[<-|[]]]].
    + rewrite Hp in Hp1. injection Hp1 as ->.
      apply (timeout_refuse p1 (1 # 100)); [exact Hlo1|].
      eapply Qlt_trans; [exact Hneg | reflexivity].
    + rewrite Hp in Hp2. injection Hp2 as ->.
      now apply (timeout_refuse p2 0).
    + rewrite Hp in Hp3. injection Hp3 as ->.
      apply (timeout_refuse p3 (10 # 1000)); [exact Hlo3|].
      eapply Qlt_trans; [exact Hneg | reflexivity].
Qed.

Lemma delay_setters_minimum_witness :
  exists par,
    table_ok (parspecs st_default) /\
    mcf_findpar "thread_pool_destroy_delay" (parspecs st_default)
      = Some par /\
    (fst (tweak_timeout par (Dur (1 # 50)) st_default) = 0
     <-> (1 # 100 <= 1 # 50)%Q).
Proof.
  eexists. split; [apply pool_inv_default|]. split; [reflexivity|].
  apply (proj1 (delay_setters_minimum st_default (1 # 50)
                  (proj1 pool_inv_default))).
  reflexivity.
Defined.

(** ** The ceiling of the reserve across updates *)

Lemma param_set_keeps_reserve_entry param arg st :
  table_ok (parspecs st) -> param <> "thread_pool_min" ->
  mcf_findpar "thread_pool_reserve" (parspecs (snd (param_set param arg st)))
  = mcf_findpar "thread_pool_reserve" (parspecs st).
Proof.
  intros Hok Hne.
  destruct (param_set param arg st) as [x st'] eqn:E.
  destruct (param_set_inv _ _ _ _ _ Hok E)
    as [[-> ->]|[-> (p & q & Hq & Hin & Hnq & He & Heff)]]; [reflexivity|].
  simpl snd.
  table_cases Hin; simpl in Heff, Hnq;
    try (destruct Heff as (u & -> & _ & ->); reflexivity);
    try (destruct Heff as (u & -> & ->); reflexivity).
  - destruct Heff as (u & -> & _ & ->). now apply after_max_entries.
  - congruence.
Qed.

(** C9.  A successful update of [thread_pool_max] stores the new value in
    [wthread_max] and rewrites the maximum of the entry of
    [thread_pool_min]; every other field of the parameter structure and
    every other entry of the table is as before.  In particular the
    ceiling of the reserve is untouched, as it is by every update of a
    parameter other than [thread_pool_min]; with [min_threads] unchanged
    it still is the one the last [thread_pool_min] update computed. *)
Theorem max_update_frame (st st' : state) (par : parspec) (arg : pval) :
  table_ok (parspecs st) ->
  mcf_findpar "thread_pool_max" (parspecs st) = Some par ->
  tweak_thread_pool_max par arg st = (0, st') ->
  (exists u pm,
     arg = UInt u /\
     mgt_param st' = store_int p_wthread_max u (mgt_param st) /\
     mcf_findpar "thread_pool_min" (parspecs st) = Some pm /\
     mcf_findpar "thread_pool_min" (parspecs st') =
       Some (conf_entry MCF_MAXIMUM (UInt u) pm)) /\
  (forall n, n <> "thread_pool_min" ->
     mcf_findpar n (parspecs st') = mcf_findpar n (parspecs st)) /\
  limit_min "thread_pool_min" st' = limit_min "thread_pool_min" st /\
  limit_max "thread_pool_reserve" st' = limit_max "thread_pool_reserve" st /\
  min_threads st' = min_threads st /\ reserve st' = reserve st /\
  (forall param a, param <> "thread_pool_min" ->
     limit_max "thread_pool_reserve" (snd (param_set param a st)) =
     limit_max "thread_pool_reserve" st).
Proof.
  intros Hok Hp Hcall.
  destruct (entry_thread_pool_max _ Hok) as (p & Hp' & _ & Hd & _).
  rewrite Hp in Hp'. injection Hp' as <-.
  destruct (entry_thread_pool_min _ Hok) as (pm & Hpm & _).
  destruct (tweak_thread_pool_max_inv _ _ _ _ _ Hcall)
    as [[? _]|[_ (u & -> & Ha & ->)]]; [discriminate|].
  destruct (after_max_values par u st Hd) as (_ & V2 & V3 & _).
  assert (Hfr : forall n, n <> "thread_pool_min" ->
            mcf_findpar n (parspecs (after_max par u st)) =
            mcf_findpar n (parspecs st)).
  { intros n Hn. apply after_max_entries. now apply String.eqb_neq. }
  assert (Hmin : mcf_findpar "thread_pool_min" (parspecs (after_max par u st))
                 = Some (conf_entry MCF_MAXIMUM (UInt u) pm)).
  { unfold after_max. simpl. rewrite Hd, store_int_max.
    now rewrite findpar_conf, String.eqb_refl, Hpm. }
  split; [|split; [|split; [|split; [|split; [|split]]]]].
  - exists u, pm. repeat split; auto.
    unfold after_max. simpl. now rewrite Hd.
  - exact Hfr.
  - unfold limit_min. rewrite Hmin, Hpm. destruct pm; reflexivity.
  - unfold limit_max. now rewrite Hfr by discriminate.
  - exact V2.
  - exact V3.
  - intros param a Hne. unfold limit_max.
    now rewrite param_set_keeps_reserve_entry.
Qed.

Lemma max_update_frame_witness :
  exists par st',
    table_ok (parspecs st_reserve_90) /\
    mcf_findpar "thread_pool_max" (parspecs st_reserve_90) = Some par /\
    tweak_thread_pool_max par (UInt 200) st_reserve_90 = (0, st') /\
    limit_max "thread_pool_reserve" st' =
      limit_max "thread_pool_reserve" st_reserve_90 /\
    reserve st' = reserve st_reserve_90.
Proof.
  eexists. eexists. split; [apply pool_inv_reserve_90|].
  split; [reflexivity|]. split; [reflexivity|].
  pose proof (max_update_frame st_reserve_90 _ _ (UInt 200)
                (proj1 pool_inv_reserve_90) eq_refl eq_refl)
    as (_ & _ & _ & H4 & _ & H6 & _).
  split; [exact H4 | exact H6].
Defined.

(** C10, counterexample.  Setting [thread_pool_min] to 6, a value of the
    range from 5 to 9, installs the reserve ceiling 6 * 950 / 1000 = 5,
    which is not below 5. *)
Lemma ceiling_for_six_is_five :
  exists par st',
    mcf_findpar "thread_pool_min" (parspecs st_default) = Some par /\
    5 <= 6 <= 9 /\
    tweak_thread_pool_min par (UInt 6) st_default = (0, st') /\
    limit_max "thread_pool_reserve" st' = Some (UInt 5) /\
    ~ uint_wrap (6 * 950) / 1000 < 5.
Proof.
  eexists. eexists. split; [reflexivity|].
  split; [vm_compute; split; discriminate|].
  split; [reflexivity|]. split; [reflexivity|].
  vm_compute. discriminate.
Qed.

(** C10, as amended.  5 is the smallest value the setter of
    [thread_pool_min] accepts, and setting it installs the reserve ceiling
    5 * 950 / 1000 = 4, below the 5 priority classes.  For [m] from 6 to 9
    the ceiling is [m - 1], at least 5: within the range from 5 to 9 the
    ceiling is below 5 for [m = 5] only. *)
Theorem small_min_reserve_ceiling (st st' : state) (par : parspec)
    (m : Z) :
  table_ok (parspecs st) ->
  mcf_findpar "thread_pool_min" (parspecs st) = Some par ->
  5 <= m <= 9 ->
  tweak_thread_pool_min par (UInt m) st = (0, st') ->
  (forall u, u < 5 -> tweak_thread_pool_min par (UInt u) st = (-1, st)) /\
  exists c,
    limit_max "thread_pool_reserve" st' = Some (UInt c) /\
    c = uint_wrap (m * 950) / 1000 /\
    (m = 5 -> c = 4) /\
    (6 <= m -> c = m - 1 /\ 5 <= c) /\
    (c < 5 <-> m = 5).
Proof.
  intros Hok Hp Hm Hcall.
  destruct (entry_thread_pool_min _ Hok) as (p & Hp' & _ & Hd & Hlo).
  rewrite Hp in Hp'. injection Hp' as <-.
  destruct (tweak_thread_pool_min_inv _ _ _ _ _ Hcall)
    as [[? _]|[_ (u & [= <-] & Ha & ->)]]; [discriminate|].
  destruct (after_min_limits par m st Hok Hd) as (_ & _ & L3).
  split.
  - intros u Hu. unfold tweak_thread_pool_min.
    now rewrite (tweak_uint_below_min par 5 u st Hlo Hu).
  - exists (uint_wrap (m * 950) / 1000).
    split; [exact L3|]. split; [reflexivity|].
    assert (Hc : uint_wrap (m * 950) / 1000 = if m =? 5 then 4 else m - 1).
    { assert (Hcases : m = 5 \/ m = 6 \/ m = 7 \/ m = 8 \/ m = 9) by lia.
      destruct Hcases as [->|[->|[->|[->| ->]]]]; reflexivity. }
    rewrite Hc. destruct (Z.eqb_spec m 5); repeat split; intros; lia.
Qed.

Lemma small_min_reserve_ceiling_witness :
  exists par st',
    table_ok (parspecs st_default) /\
    mcf_findpar "thread_pool_min" (parspecs st_default) = Some par /\
    5 <= 5 <= 9 /\
    tweak_thread_pool_min par (UInt 5) st_default = (0, st') /\
    exists c, limit_max "thread_pool_reserve" st' = Some (UInt c) /\ c = 4.
Proof.
  eexists. eexists. split; [apply pool_inv_default|].
  split; [reflexivity|]. split; [vm_compute; split; discriminate|].
  split; [reflexivity|].
  destruct (small_min_reserve_ceiling st_default _ _ 5
              (proj1 pool_inv_default) eq_refl
              ltac:(vm_compute; split; discriminate) eq_refl)
    as (_ & c & H1 & _ & H3 & _).
  exists c. split; [exact H1 | apply H3; reflexivity].
Defined.

(** * Further properties of the two setters *)

(** ** Rewrites of the table compose *)

Lemma conf_entry_idem w v pp :
  conf_entry w v (conf_entry w v pp) = conf_entry w v pp.
Proof. destruct pp, w; reflexivity. Qed.

Lemma conf_table_idem w param v tbl :
  conf_table w param v (conf_table w param v tbl) = conf_table w param v tbl.
Proof.
  induction tbl as [|pp tl IH]; simpl; [reflexivity|].
  destruct (String.eqb (name pp) param) eqn:E; simpl.
  - now rewrite name_conf_entry, E, conf_entry_idem.
  - now rewrite E, IH.
Qed.

Lemma conf_table_comm w1 p1 v1 w2 p2 v2 tbl :
  p1 <> p2 ->
  conf_table w1 p1 v1 (conf_table w2 p2 v2 tbl) =
  conf_table w2 p2 v2 (conf_table w1 p1 v1 tbl).
Proof.
  intros Hne. induction tbl as [|pp tl IH]; simpl; [reflexivity|].
  destruct (String.eqb_spec (name pp) p1) as [E1|E1];
    destruct (String.eqb_spec (name pp) p2) as [E2|E2]; simpl;
    rewrite ?name_conf_entry.
  - congruence.
  - destruct (String.eqb_spec (name pp) p1); [|contradiction].
    destruct (String.eqb_spec (name pp) p2); [contradiction|reflexivity].
  - destruct (String.eqb_spec (name pp) p1); [contradiction|].
    destruct (String.eqb_spec (name pp) p2); [reflexivity|contradiction].
  - destruct (String.eqb_spec (name pp) p1); [contradiction|].
    destruct (String.eqb_spec (name pp) p2); [contradiction|].
    now rewrite IH.
Qed.

Lemma store_int_idem d u mp :
  store_int d u (store_int d u mp) = store_int d u mp.
Proof. destruct mp, d; reflexivity. Qed.

Lemma store_int_min_max m M mp :
  store_int p_wthread_max M (store_int p_wthread_min m mp) =
  store_int p_wthread_min m (store_int p_wthread_max M mp).
Proof. destruct mp; reflexivity. Qed.

Lemma after_min_idem par u st :
  after_min par u (after_min par u st) = after_min par u st.
Proof.
  unfold after_min, MCF_ParamConf. cbn [mgt_param parspecs].
  rewrite store_int_idem. f_equal.
  rewrite (conf_table_comm MCF_MINIMUM "thread_pool_max" _
             MCF_MAXIMUM "thread_pool_reserve") by discriminate.
  now rewrite conf_table_idem, conf_table_idem.
Qed.

Lemma after_max_idem par u st :
  after_max par u (after_max par u st) = after_max par u st.
Proof.
  unfold after_max, MCF_ParamConf. cbn [mgt_param parspecs].
  rewrite store_int_idem. f_equal. now rewrite conf_table_idem.
Qed.

Lemma after_min_max_comm pmin pmax m M st :
  priv pmin = p_wthread_min -> priv pmax = p_wthread_max ->
  after_max pmax M (after_min pmin m st) =
  after_min pmin m (after_max pmax M st).
Proof.
  intros Hd1 Hd2. unfold after_max, after_min, MCF_ParamConf.
  cbn [mgt_param parspecs]. rewrite Hd1, Hd2.
  rewrite !store_int_min, !store_int_max, store_int_min_max.
  f_equal.
  rewrite (conf_table_comm MCF_MAXIMUM "thread_pool_min" _
             MCF_MAXIMUM "thread_pool_reserve") by discriminate.
  now rewrite (conf_table_comm MCF_MAXIMUM "thread_pool_min" _
                 MCF_MINIMUM "thread_pool_max") by discriminate.
Qed.

(** ** Calls through the table *)

Lemma param_set_min st par arg :
  table_ok (parspecs st) ->
  mcf_findpar "thread_pool_min" (parspecs st) = Some par ->
  param_set "thread_pool_min" arg st = tweak_thread_pool_min par arg st.
Proof.
  intros Hok Hp.
  destruct (entry_thread_pool_min _ Hok) as (p & Hp' & Hf & _).
  rewrite Hp in Hp'. injection Hp' as <-.
  unfold param_set. now rewrite Hp, Hf.
Qed.

Lemma param_set_max st par arg :
  table_ok (parspecs st) ->
  mcf_findpar "thread_pool_max" (parspecs st) = Some par ->
  param_set "thread_pool_max" arg st = tweak_thread_pool_max par arg st.
Proof.
  intros Hok Hp.
  destruct (entry_thread_pool_max _ Hok) as (p & Hp' & Hf & _).
  rewrite Hp in Hp'. injection Hp' as <-.
  unfold param_set. now rewrite Hp, Hf.
Qed.

Lemma tweak_thread_pool_min_accept par u st :
  uint_accepts par u ->
  tweak_thread_pool_min par (UInt u) st = (0, after_min par u st).
Proof.
  intros Ha. unfold tweak_thread_pool_min.
  now rewrite (tweak_uint_accept par u st Ha).
Qed.

Lemma tweak_thread_pool_max_accept par u st :
  uint_accepts par u ->
  tweak_thread_pool_max par (UInt u) st = (0, after_max par u st).
Proof.
  intros Ha. unfold tweak_thread_pool_max.
  now rewrite (tweak_uint_accept par u st Ha).
Qed.

Lemma tweak_thread_pool_min_refuse par u st :
  ~ uint_accepts par u ->
  tweak_thread_pool_min par (UInt u) st = (-1, st).
Proof.
  intros Hn. unfold tweak_thread_pool_min.
  now rewrite (tweak_uint_refuse par u st Hn).
Qed.

Lemma tweak_thread_pool_max_refuse par u st :
  ~ uint_accepts par u ->
  tweak_thread_pool_max par (UInt u) st = (-1, st).
Proof.
  intros Hn. unfold tweak_thread_pool_max.
  now rewrite (tweak_uint_refuse par u st Hn).
Qed.

(** What the range check of the two entries amounts to. *)

Lemma min_entry_accepts st par m :
  table_ok (parspecs st) ->
  mcf_findpar "thread_pool_min" (parspecs st) = Some par ->
  limit_max "thread_pool_min" st = Some (UInt (max_threads st)) ->
  max_threads st <= UINT_MAX ->
  (uint_accepts par m <-> 5 <= m <= max_threads st).
Proof.
  intros Hok Hp Hl Hmax.
  destruct (entry_thread_pool_min _ Hok) as (p & Hp' & _ & _ & Hlo).
  rewrite Hp in Hp'. injection Hp' as <-.
  unfold limit_max in Hl. rewrite Hp in Hl.
  unfold uint_accepts, above_min_uint, below_max_uint. rewrite Hlo, Hl.
  rewrite !Z.leb_le. lia.
Qed.

Lemma max_entry_accepts st par M :
  table_ok (parspecs st) ->
  mcf_findpar "thread_pool_max" (parspecs st) = Some par ->
  limit_min "thread_pool_max" st = Some (UInt (min_threads st)) ->
  0 <= min_threads st ->
  (uint_accepts par M <-> min_threads st <= M <= UINT_MAX).
Proof.
  intros Hok Hp Hl Hmin.
  destruct (entry_thread_pool_max _ Hok) as (p & Hp' & _ & _ & Hhi).
  rewrite Hp in Hp'. injection Hp' as <-.
  unfold limit_min in Hl. rewrite Hp in Hl.
  unfold uint_accepts, above_min_uint, below_max_uint. rewrite Hhi, Hl.
  rewrite !Z.leb_le. intuition lia.
Qed.

Lemma after_min_priv p p' u st :
  priv p = priv p' -> after_min p u st = after_min p' u st.
Proof. intros E. unfold after_min. now rewrite E. Qed.

Lemma after_max_priv p p' u st :
  priv p = priv p' -> after_max p u st = after_max p' u st.
Proof. intros E. unfold after_max. now rewrite E. Qed.

(** The pool values and the table across one update through the table. *)
Lemma param_set_values param arg st :
  table_ok (parspecs st) ->
  (param <> "thread_pool_min" ->
   min_threads (snd (param_set param arg st)) = min_threads st) /\
  (param <> "thread_pool_max" ->
   max_threads (snd (param_set param arg st)) = max_threads st) /\
  (param <> "thread_pool_reserve" ->
   reserve (snd (param_set param arg st)) = reserve st) /\
  (param <> "thread_pools" ->
   pool_count (snd (param_set param arg st)) = pool_count st) /\
  (param <> "thread_pool_min" -> param <> "thread_pool_max" ->
   parspecs (snd (param_set param arg st)) = parspecs st).
Proof.
  intros Hok.
  destruct (param_set param arg st) as [x st'] eqn:E.
  destruct (param_set_inv _ _ _ _ _ Hok E)
    as [[-> ->]|[-> (p & q & Hq & Hin & Hnq & He & Heff)]];
    [repeat split; reflexivity|].
  destruct He as (Hn & Hf & Hd & _). simpl snd.
  table_cases Hin; simpl in Heff, Hnq, Hd; subst param;
    try (first [destruct Heff as (u & -> & _ & ->)
               |destruct Heff as (u & -> & ->)];
         repeat split; intros; try congruence;
         unfold min_threads, max_threads, reserve, pool_count; simpl;
         destruct (mgt_param st); reflexivity).
  - destruct Heff as (u & -> & _ & ->).
    destruct (after_max_values p u st Hd) as (_ & V2 & V3 & V4).
    repeat split; intros; congruence.
  - destruct Heff as (u & -> & _ & ->).
    destruct (after_min_values p u st Hd) as (_ & V2 & V3 & V4).
    repeat split; intros; congruence.
Qed.

(** X1.  A successful [thread_pool_min] update stores the new value in
    [wthread_min], rewrites the minimum of the entry of [thread_pool_max]
    to it and the maximum of the entry of [thread_pool_reserve] to the
    ceiling computed from it; every other field of the parameter structure
    and every other entry of the table, its own included, is as before. *)
Theorem min_update_frame (st st' : state) (par : parspec) (arg : pval) :
  table_ok (parspecs st) ->
  mcf_findpar "thread_pool_min" (parspecs st) = Some par ->
  tweak_thread_pool_min par arg st = (0, st') ->
  (exists u pmx prs,
     arg = UInt u /\
     mgt_param st' = store_int p_wthread_min u (mgt_param st) /\
     mcf_findpar "thread_pool_max" (parspecs st) = Some pmx /\
     mcf_findpar "thread_pool_max" (parspecs st') =
       Some (conf_entry MCF_MINIMUM (UInt u) pmx) /\
     mcf_findpar "thread_pool_reserve" (parspecs st) = Some prs /\
     mcf_findpar "thread_pool_reserve" (parspecs st') =
       Some (conf_entry MCF_MAXIMUM (UInt (reserve_ceiling u)) prs)) /\
  (forall n, n <> "thread_pool_max" -> n <> "thread_pool_reserve" ->
     mcf_findpar n (parspecs st') = mcf_findpar n (parspecs st)) /\
  max_threads st' = max_threads st /\ reserve st' = reserve st /\
  pool_count st' = pool_count st /\
  limit_max "thread_pool_max" st' = limit_max "thread_pool_max" st /\
  limit_min "thread_pool_reserve" st' = limit_min "thread_pool_reserve" st.
Proof.
  intros Hok Hp Hcall.
  destruct (entry_thread_pool_min _ Hok) as (p & Hp' & _ & Hd & _).
  rewrite Hp in Hp'. injection Hp' as <-.
  destruct (entry_thread_pool_max _ Hok) as (pmx & Hpmx & _).
  destruct (entry_thread_pool_reserve _ Hok) as (prs & Hprs & _).
  destruct (tweak_thread_pool_min_inv _ _ _ _ _ Hcall)
    as [[? _]|[_ (u & -> & Ha & ->)]]; [discriminate|].
  destruct (after_min_values par u st Hd) as (_ & V2 & V3 & V4).
  assert (Hmx : mcf_findpar "thread_pool_max" (parspecs (after_min par u st))
                = Some (conf_entry MCF_MINIMUM (UInt u) pmx)).
  { unfold after_min. simpl. rewrite Hd, store_int_min.
    rewrite findpar_conf. simpl String.eqb.
    now rewrite findpar_conf, String.eqb_refl, Hpmx. }
  assert (Hrs : mcf_findpar "thread_pool_reserve"
                  (parspecs (after_min par u st))
                = Some (conf_entry MCF_MAXIMUM (UInt (reserve_ceiling u)) prs)).
  { unfold after_min. simpl. rewrite Hd, store_int_min.
    rewrite findpar_conf, String.eqb_refl.
    rewrite findpar_conf. simpl String.eqb. now rewrite Hprs. }
  split; [|split; [|split; [|split; [|split; [|split]]]]].
  - exists u, pmx, prs. repeat split; auto.
    unfold after_min. simpl. now rewrite Hd.
  - intros n H1 H2. apply after_min_entries; now apply String.eqb_neq.
  - exact V2.
  - exact V3.
  - exact V4.
  - unfold limit_max. rewrite Hmx, Hpmx. destruct pmx; reflexivity.
  - unfold limit_min. rewrite Hrs, Hprs. destruct prs; reflexivity.
Qed.

Lemma min_update_frame_witness :
  exists par st',
    table_ok (parspecs st_reserve_90) /\
    mcf_findpar "thread_pool_min" (parspecs st_reserve_90) = Some par /\
    tweak_thread_pool_min par (UInt 200) st_reserve_90 = (0, st') /\
    max_threads st' = max_threads st_reserve_90 /\
    reserve st' = reserve st_reserve_90.
Proof.
  eexists. eexists. split; [apply pool_inv_reserve_90|].
  split; [reflexivity|]. split; [reflexivity|].
  pose proof (min_update_frame st_reserve_90 _ _ (UInt 200)
                (proj1 pool_inv_reserve_90) eq_refl eq_refl)
    as (_ & _ & H3 & H4 & _).
  split; [exact H3 | exact H4].
Defined.

(** X2.  With the cross limits in place, the setter of [thread_pool_min]
    accepts exactly the values from 5 to the stored maximum, and the
    setter of [thread_pool_max] exactly the values from the stored minimum
    to [UINT_MAX]: the entry of [thread_pool_max] has no upper limit. *)
Theorem pool_limit_windows (st : state) :
  table_ok (parspecs st) -> linked st ->
  0 <= min_threads st -> max_threads st <= UINT_MAX ->
  (forall par m,
     mcf_findpar "thread_pool_min" (parspecs st) = Some par ->
     (fst (tweak_thread_pool_min par (UInt m) st) = 0
      <-> 5 <= m <= max_threads st)) /\
  (forall par M,
     mcf_findpar "thread_pool_max" (parspecs st) = Some par ->
     (fst (tweak_thread_pool_max par (UInt M) st) = 0
      <-> min_threads st <= M <= UINT_MAX)).
Proof.
  intros Hok [Hl1 Hl2] Hmin Hmax. split.
  - intros par m Hp.
    rewrite <- (min_entry_accepts st par m Hok Hp Hl2 Hmax).
    split.
    + intros Hfst.
      destruct (tweak_thread_pool_min par (UInt m) st) as [x st'] eqn:E.
      simpl in Hfst. subst x.
      destruct (tweak_thread_pool_min_inv _ _ _ _ _ E)
        as [[? _]|[_ (u & [= <-] & Ha & _)]]; [discriminate | exact Ha].
    + intros Ha. now rewrite tweak_thread_pool_min_accept.
  - intros par M Hp.
    rewrite <- (max_entry_accepts st par M Hok Hp Hl1 Hmin).
    split.
    + intros Hfst.
      destruct (tweak_thread_pool_max par (UInt M) st) as [x st'] eqn:E.
      simpl in Hfst. subst x.
      destruct (tweak_thread_pool_max_inv _ _ _ _ _ E)
        as [[? _]|[_ (u & [= <-] & Ha & _)]]; [discriminate | exact Ha].
    + intros Ha. now rewrite tweak_thread_pool_max_accept.
Qed.

Lemma pool_limit_windows_witness :
  exists pmin pmax,
    table_ok (parspecs st_default) /\ linked st_default /\
    0 <= min_threads st_default /\ max_threads st_default <= UINT_MAX /\
    mcf_findpar "thread_pool_min" (parspecs st_default) = Some pmin /\
    mcf_findpar "thread_pool_max" (parspecs st_default) = Some pmax /\
    (fst (tweak_thread_pool_min pmin (UInt 5001) st_default) = 0
     <-> 5 <= 5001 <= max_threads st_default) /\
    (fst (tweak_thread_pool_max pmax (UInt 99) st_default) = 0
     <-> min_threads st_default <= 99 <= UINT_MAX).
Proof.
  eexists. eexists.
  split; [apply pool_inv_default|]. split; [apply pool_inv_default|].
  split; [vm_compute; discriminate|]. split; [vm_compute; discriminate|].
  split; [reflexivity|]. split; [reflexivity|].
  pose proof (pool_limit_windows st_default (proj1 pool_inv_default)
                (proj1 (proj2 pool_inv_default))
                ltac:(vm_compute; discriminate)
                ltac:(vm_compute; discriminate)) as [H1 H2].
  split; [apply H1; reflexivity | apply H2; reflexivity].
Defined.

(** X3.  Repeating a successful update changes nothing: after a successful
    [thread_pool_min] (or [thread_pool_max]) update the entry of the
    parameter is as before, and the same request succeeds again and leaves
    the state it found. *)
Theorem repeated_update_is_idle (st st' : state) (par : parspec)
    (arg : pval) :
  (mcf_findpar "thread_pool_min" (parspecs st) = Some par ->
   tweak_thread_pool_min par arg st = (0, st') ->
   mcf_findpar "thread_pool_min" (parspecs st') = Some par /\
   tweak_thread_pool_min par arg st' = (0, st')) /\
  (mcf_findpar "thread_pool_max" (parspecs st) = Some par ->
   tweak_thread_pool_max par arg st = (0, st') ->
   mcf_findpar "thread_pool_max" (parspecs st') = Some par /\
   tweak_thread_pool_max par arg st' = (0, st')).
Proof.
  split; intros Hp Hcall.
  - destruct (tweak_thread_pool_min_inv _ _ _ _ _ Hcall)
      as [[? _]|[_ (u & -> & Ha & ->)]]; [discriminate|].
    split.
    + now rewrite after_min_entries by reflexivity.
    + rewrite tweak_thread_pool_min_accept by exact Ha.
      now rewrite after_min_idem.
  - destruct (tweak_thread_pool_max_inv _ _ _ _ _ Hcall)
      as [[? _]|[_ (u & -> & Ha & ->)]]; [discriminate|].
    split.
    + now rewrite after_max_entries by reflexivity.
    + rewrite tweak_thread_pool_max_accept by exact Ha.
      now rewrite after_max_idem.
Qed.

Lemma repeated_update_is_idle_witness :
  exists par st',
    mcf_findpar "thread_pool_min" (parspecs st_default) = Some par /\
    tweak_thread_pool_min par (UInt 50) st_default = (0, st') /\
    tweak_thread_pool_min par (UInt 50) st' = (0, st').
Proof.
  eexists. eexists. split; [reflexivity|]. split; [reflexivity|].
  exact (proj2 (proj1 (repeated_update_is_idle st_default _ _ (UInt 50))
                  eq_refl eq_refl)).
Defined.

(** X4.  Whatever the limits of the two entries were, once each of the two
    setters has succeeded, in either order, the pool is configured: the
    cross limits are in place and [5 <= min_threads <= max_threads]. *)
Theorem limits_linked_after_both (st s1 s2 : state) (pmin pmax : parspec)
    (amin amax : pval) :
  table_ok (parspecs st) ->
  (mcf_findpar "thread_pool_max" (parspecs st) = Some pmax ->
   tweak_thread_pool_max pmax amax st = (0, s1) ->
   mcf_findpar "thread_pool_min" (parspecs s1) = Some pmin ->
   tweak_thread_pool_min pmin amin s1 = (0, s2) ->
   pool_inv s2) /\
  (mcf_findpar "thread_pool_min" (parspecs st) = Some pmin ->
   tweak_thread_pool_min pmin amin st = (0, s1) ->
   mcf_findpar "thread_pool_max" (parspecs s1) = Some pmax ->
   tweak_thread_pool_max pmax amax s1 = (0, s2) ->
   pool_inv s2).
Proof.
  intros Hok. split; intros Hp1 Hc1 Hp2 Hc2.
  - destruct (entry_thread_pool_max _ Hok) as (p & Hp & _ & Hdx & _).
    rewrite Hp1 in Hp. injection Hp as <-.
    destruct (tweak_thread_pool_max_inv _ _ _ _ _ Hc1)
      as [[? _]|[_ (M & -> & HaM & ->)]]; [discriminate|].
    pose proof (table_ok_after_max pmax M st Hok) as Hok1.
    destruct (after_max_values pmax M st Hdx) as (V1 & _).
    destruct (after_max_limits pmax M st Hok Hdx) as (L1 & _).
    destruct (entry_thread_pool_min _ Hok1) as (p & Hp & _ & Hdn & Hlo).
    rewrite Hp2 in Hp. injection Hp as <-.
    destruct (tweak_thread_pool_min_inv _ _ _ _ _ Hc2)
      as [[? _]|[_ (m & -> & Ham & ->)]]; [discriminate|].
    set (t := after_max pmax M st) in *.
    destruct (after_min_values pmin m t Hdn) as (W1 & W2 & _).
    destruct (after_min_limits pmin m t Hok1 Hdn) as (K1 & K2 & _).
    assert (5 <= m) by (apply (accepts_above pmin); assumption).
    assert (m <= M).
    { apply (accepts_below pmin); [exact Ham|].
      unfold limit_max in L1. now rewrite Hp2 in L1. }
    split; [now apply table_ok_after_min|].
    split; [split; [now rewrite K1, W1 | now rewrite K2, W2, L1, V1] | lia].
  - destruct (entry_thread_pool_min _ Hok) as (p & Hp & _ & Hdn & Hlo).
    rewrite Hp1 in Hp. injection Hp as <-.
    destruct (tweak_thread_pool_min_inv _ _ _ _ _ Hc1)
      as [[? _]|[_ (m & -> & Ham & ->)]]; [discriminate|].
    pose proof (table_ok_after_min pmin m st Hok) as Hok1.
    destruct (after_min_values pmin m st Hdn) as (V1 & _).
    destruct (after_min_limits pmin m st Hok Hdn) as (L1 & _).
    destruct (entry_thread_pool_max _ Hok1) as (p & Hp & _ & Hdx & _).
    rewrite Hp2 in Hp. injection Hp as <-.
    destruct (tweak_thread_pool_max_inv _ _ _ _ _ Hc2)
      as [[? _]|[_ (M & -> & HaM & ->)]]; [discriminate|].
    set (t := after_min pmin m st) in *.
    destruct (after_max_values pmax M t Hdx) as (W1 & W2 & _).
    destruct (after_max_limits pmax M t Hok1 Hdx) as (K1 & K2).
    assert (5 <= m) by (apply (accepts_above pmin); assumption).
    assert (m <= M).
    { apply (accepts_above pmax); [exact HaM|].
      unfold limit_min in L1. now rewrite Hp2 in L1. }
    split; [now apply table_ok_after_max|].
    split; [split; [now rewrite K2, W2, L1, V1 | now rewrite K1, W1] | lia].
Qed.

Lemma limits_linked_after_both_witness :
  exists pmin pmax s1 s2,
    table_ok (parspecs st_zero) /\
    mcf_findpar "thread_pool_min" (parspecs st_zero) = Some pmin /\
    tweak_thread_pool_min pmin (UInt 7) st_zero = (0, s1) /\
    mcf_findpar "thread_pool_max" (parspecs s1) = Some pmax /\
    tweak_thread_pool_max pmax (UInt 9) s1 = (0, s2) /\
    pool_inv s2.
Proof.
  do 4 eexists. split; [exact table_ok_WRK|].
  split; [reflexivity|]. split; [reflexivity|].
  split; [reflexivity|]. split; [reflexivity|].
  exact (proj2 (limits_linked_after_both st_zero _ _ _ _ (UInt 7) (UInt 9)
                  table_ok_WRK) eq_refl eq_refl eq_refl eq_refl).
Defined.

(** X5.  From a configured pool every window [5 <= m <= M <= UINT_MAX] is
    reached by two updates in a suitable order: the maximum first when
    [M] is not below the stored minimum, the minimum first otherwise.  The
    order matters: with the minimum first, a target [m] above the stored
    maximum is refused and the stored minimum stays. *)
Theorem window_is_reachable (st : state) (m M : Z) :
  pool_inv st -> max_threads st <= UINT_MAX ->
  5 <= m <= M -> M <= UINT_MAX ->
  (let reqs := if min_threads st <=? M
               then [("thread_pool_max", UInt M); ("thread_pool_min", UInt m)]
               else [("thread_pool_min", UInt m); ("thread_pool_max", UInt M)]
   in
   min_threads (run reqs st) = m /\ max_threads (run reqs st) = M /\
   pool_inv (run reqs st)) /\
  (max_threads st < m ->
   min_threads (run [("thread_pool_min", UInt m);
                     ("thread_pool_max", UInt M)] st) = min_threads st).
Proof.
  intros Hinv Hmax Hm HM. pose proof Hinv as (Hok & [Hl1 Hl2] & Hb).
  destruct (entry_thread_pool_min _ Hok) as (pmin & Hpmin & _ & Hdn & _).
  destruct (entry_thread_pool_max _ Hok) as (pmax & Hpmax & _ & Hdx & _).
  split.
  - destruct (Z.leb_spec (min_threads st) M) as [Hle|Hgt]; cbv zeta.
    + (* the maximum first *)
      assert (HaM : uint_accepts pmax M)
        by (apply (max_entry_accepts st); auto; lia).
      set (reqs := [_; _]).
      assert (Hinv' : pool_inv (run reqs st)) by now apply run_pool_inv.
      subst reqs. revert Hinv'. simpl run.
      rewrite (param_set_max st pmax _ Hok Hpmax).
      rewrite (tweak_thread_pool_max_accept _ _ _ HaM). simpl snd.
      set (t := after_max pmax M st).
      pose proof (table_ok_after_max pmax M st Hok) as Hok1.
      destruct (after_max_values pmax M st Hdx) as (V1 & V2 & _).
      destruct (after_max_limits pmax M st Hok Hdx) as (L1 & L2).
      destruct (entry_thread_pool_min _ Hok1) as (p1 & Hp1 & _ & Hd1 & _).
      assert (Ham : uint_accepts p1 m).
      { apply (min_entry_accepts t); auto; fold t in V1, L1;
          rewrite ?V1; auto; lia. }
      rewrite (param_set_min t p1 _ Hok1 Hp1).
      rewrite (tweak_thread_pool_min_accept _ _ _ Ham). simpl snd.
      destruct (after_min_values p1 m t Hd1) as (W1 & W2 & _).
      intros Hinv'. split; [exact W1|].
      split; [rewrite W2; exact V1 | exact Hinv'].
    + (* the minimum first *)
      assert (Ham : uint_accepts pmin m)
        by (apply (min_entry_accepts st); auto; lia).
      set (reqs := [_; _]).
      assert (Hinv' : pool_inv (run reqs st)) by now apply run_pool_inv.
      subst reqs. revert Hinv'. simpl run.
      rewrite (param_set_min st pmin _ Hok Hpmin).
      rewrite (tweak_thread_pool_min_accept _ _ _ Ham). simpl snd.
      set (t := after_min pmin m st).
      pose proof (table_ok_after_min pmin m st Hok) as Hok1.
      destruct (after_min_values pmin m st Hdn) as (V1 & V2 & _).
      destruct (after_min_limits pmin m st Hok Hdn) as (L1 & L2 & _).
      destruct (entry_thread_pool_max _ Hok1) as (p1 & Hp1 & _ & Hd1 & _).
      assert (HaM : uint_accepts p1 M).
      { apply (max_entry_accepts t); auto; fold t in V1, L1;
          rewrite ?V1; auto; lia. }
      rewrite (param_set_max t p1 _ Hok1 Hp1).
      rewrite (tweak_thread_pool_max_accept _ _ _ HaM). simpl snd.
      destruct (after_max_values p1 M t Hd1) as (W1 & W2 & _).
      intros Hinv'. split; [rewrite W2; exact V1|].
      split; [exact W1 | exact Hinv'].
  - intros Hcross. simpl run.
    rewrite (param_set_min st pmin _ Hok Hpmin).
    rewrite tweak_thread_pool_min_refuse.
    + simpl snd.
      apply (proj1 (param_set_values "thread_pool_max" (UInt M) st Hok)).
      discriminate.
    + intros Ha. apply (min_entry_accepts st) in Ha; auto. lia.
Qed.

Lemma window_is_reachable_witness :
  pool_inv st_default /\ max_threads st_default <= UINT_MAX /\
  5 <= 6000 <= 7000 /\ 7000 <= UINT_MAX /\
  (let st' := run [("thread_pool_max", UInt 7000);
                   ("thread_pool_min", UInt 6000)] st_default in
   min_threads st' = 6000 /\ max_threads st' = 7000) /\
  min_threads (run [("thread_pool_min", UInt 6000);
                    ("thread_pool_max", UInt 7000)] st_default)
  = min_threads st_default.
Proof.
  split; [exact pool_inv_default|]. split; [vm_compute; discriminate|].
  split; [vm_compute; split; discriminate|].
  split; [vm_compute; discriminate|].
  pose proof (window_is_reachable st_default 6000 7000 pool_inv_default
                ltac:(vm_compute; discriminate)
                ltac:(vm_compute; split; discriminate)
                ltac:(vm_compute; discriminate)) as [H1 H2].
  split.
  - destruct H1 as (A & B & _). split; [exact A | exact B].
  - apply H2. reflexivity.
Defined.

(** X6.  When a [thread_pool_min] update and a [thread_pool_max] update
    succeed in both orders, the two orders leave the same state. *)
Theorem min_max_updates_commute (st s1 s2 t1 t2 : state)
    (pmin pmax pmin' pmax' : parspec) (m M : Z) :
  table_ok (parspecs st) ->
  mcf_findpar "thread_pool_min" (parspecs st) = Some pmin ->
  tweak_thread_pool_min pmin (UInt m) st = (0, s1) ->
  mcf_findpar "thread_pool_max" (parspecs s1) = Some pmax' ->
  tweak_thread_pool_max pmax' (UInt M) s1 = (0, s2) ->
  mcf_findpar "thread_pool_max" (parspecs st) = Some pmax ->
  tweak_thread_pool_max pmax (UInt M) st = (0, t1) ->
  mcf_findpar "thread_pool_min" (parspecs t1) = Some pmin' ->
  tweak_thread_pool_min pmin' (UInt m) t1 = (0, t2) ->
  s2 = t2.
Proof.
  intros Hok Hpn Hc1 Hpx' Hc2 Hpx Hc3 Hpn' Hc4.
  destruct (entry_thread_pool_min _ Hok) as (p & Hp & _ & Hdn & _).
  rewrite Hpn in Hp. injection Hp as <-.
  destruct (entry_thread_pool_max _ Hok) as (p & Hp & _ & Hdx & _).
  rewrite Hpx in Hp. injection Hp as <-.
  destruct (tweak_thread_pool_min_inv _ _ _ _ _ Hc1)
    as [[? _]|[_ (u & [= <-] & _ & ->)]]; [discriminate|].
  destruct (tweak_thread_pool_max_inv _ _ _ _ _ Hc3)
    as [[? _]|[_ (u & [= <-] & _ & ->)]]; [discriminate|].
  pose proof (table_ok_after_min pmin m st Hok) as Hok1.
  pose proof (table_ok_after_max pmax M st Hok) as Hok2.
  destruct (entry_thread_pool_max _ Hok1) as (p & Hp & _ & Hdx' & _).
  rewrite Hpx' in Hp. injection Hp as <-.
  destruct (entry_thread_pool_min _ Hok2) as (p & Hp & _ & Hdn' & _).
  rewrite Hpn' in Hp. injection Hp as <-.
  destruct (tweak_thread_pool_max_inv _ _ _ _ _ Hc2)
    as [[? _]|[_ (u & [= <-] & _ & ->)]]; [discriminate|].
  destruct (tweak_thread_pool_min_inv _ _ _ _ _ Hc4)
    as [[? _]|[_ (u & [= <-] & _ & ->)]]; [discriminate|].
  rewrite (after_max_priv pmax' pmax) by congruence.
  rewrite (after_min_priv pmin' pmin) by congruence.
  now apply after_min_max_comm.
Qed.

Lemma min_max_updates_commute_witness :
  exists pmin pmax pmin' pmax' s1 s2 t1 t2,
    table_ok (parspecs st_default) /\
    mcf_findpar "thread_pool_min" (parspecs st_default) = Some pmin /\
    tweak_thread_pool_min pmin (UInt 200) st_default = (0, s1) /\
    mcf_findpar "thread_pool_max" (parspecs s1) = Some pmax' /\
    tweak_thread_pool_max pmax' (UInt 300) s1 = (0, s2) /\
    mcf_findpar "thread_pool_max" (parspecs st_default) = Some pmax /\
    tweak_thread_pool_max pmax (UInt 300) st_default = (0, t1) /\
    mcf_findpar "thread_pool_min" (parspecs t1) = Some pmin' /\
    tweak_thread_pool_min pmin' (UInt 200) t1 = (0, t2) /\
    s2 = t2.
Proof.
  do 8 eexists. split; [apply pool_inv_default|].
  do 8 (split; [reflexivity|]).
  exact (min_max_updates_commute st_default _ _ _ _ _ _ _ _ 200 300
           (proj1 pool_inv_default)
           eq_refl eq_refl eq_refl eq_refl eq_refl eq_refl eq_refl eq_refl).
Defined.

(** X7.  As the table is written the entry of [thread_pool_max] has no
    minimum.  While that is so its setter accepts every unsigned value,
    those below 5 included, and after such an update no [thread_pool_min]
    update can succeed: every request is refused and changes nothing. *)
Theorem low_max_blocks_min (st : state) (pmax : parspec) (M : Z) :
  table_ok (parspecs st) ->
  mcf_findpar "thread_pool_max" (parspecs st) = Some pmax ->
  limit_min "thread_pool_max" st = None ->
  0 <= M <= UINT_MAX ->
  exists st',
    tweak_thread_pool_max pmax (UInt M) st = (0, st') /\
    max_threads st' = M /\
    (M < 5 ->
     forall pmin arg,
       mcf_findpar "thread_pool_min" (parspecs st') = Some pmin ->
       tweak_thread_pool_min pmin arg st' = (-1, st')).
Proof.
  intros Hok Hp Hnone HM.
  destruct (entry_thread_pool_max _ Hok) as (p & Hp' & _ & Hdx & Hhi).
  rewrite Hp in Hp'. injection Hp' as <-.
  unfold limit_min in Hnone. rewrite Hp in Hnone.
  assert (Ha : uint_accepts pmax M).
  { unfold uint_accepts, above_min_uint, below_max_uint.
    rewrite Hnone, Hhi. auto. }
  exists (after_max pmax M st).
  split; [now apply tweak_thread_pool_max_accept|].
  split; [apply (after_max_values pmax M st Hdx)|].
  intros Hlow pmin arg Hpmin.
  destruct (after_max_limits pmax M st Hok Hdx) as (L1 & _).
  destruct (tweak_thread_pool_min pmin arg (after_max pmax M st))
    as [x s] eqn:E.
  destruct (tweak_thread_pool_min_inv _ _ _ _ _ E)
    as [[-> ->]|[_ (u & -> & Hu & _)]]; [reflexivity|].
  exfalso.
  pose proof (table_ok_after_max pmax M st Hok) as Hok1.
  destruct (entry_thread_pool_min _ Hok1) as (p & Hp' & _ & _ & Hlo).
  rewrite Hpmin in Hp'. injection Hp' as <-.
  pose proof (accepts_above _ _ _ Hu Hlo).
  unfold limit_max in L1. rewrite Hpmin in L1.
  pose proof (accepts_below _ _ _ Hu L1). lia.
Qed.

Lemma low_max_blocks_min_witness :
  exists pmax pmin st',
    table_ok (parspecs st_zero) /\
    mcf_findpar "thread_pool_max" (parspecs st_zero) = Some pmax /\
    limit_min "thread_pool_max" st_zero = None /\
    0 <= 3 <= UINT_MAX /\
    tweak_thread_pool_max pmax (UInt 3) st_zero = (0, st') /\
    mcf_findpar "thread_pool_min" (parspecs st') = Some pmin /\
    tweak_thread_pool_min pmin (UInt 5) st' = (-1, st').
Proof.
  destruct (low_max_blocks_min st_zero _ 3 table_ok_WRK eq_refl eq_refl
              ltac:(vm_compute; split; discriminate))
    as (st' & H1 & _ & H3).
  eexists. eexists. exists st'.
  split; [exact table_ok_WRK|]. split; [reflexivity|].
  split; [reflexivity|]. split; [vm_compute; split; discriminate|].
  split; [exact H1|].
  injection H1 as <-.
  split; [reflexivity|].
  apply H3; reflexivity.
Defined.

(** ** The reserve ceiling in numbers *)

Lemma reserve_ceiling_bound m : reserve_ceiling m <= 4294967.
Proof.
  unfold reserve_ceiling, uint_wrap.
  assert (H : 0 <= (m * 950) mod 2 ^ 32 < 2 ^ 32)
    by (apply Z.mod_pos_bound; lia).
  assert ((m * 950) mod 2 ^ 32 / 1000 < 4294968)
    by (apply Z.div_lt_upper_bound; lia).
  lia.
Qed.

Lemma reserve_ceiling_wrapped m :
  2 ^ 32 <= m * 950 -> reserve_ceiling m < m * 950 / 1000.
Proof.
  intros Hbig. unfold reserve_ceiling, uint_wrap.
  set (x := m * 950) in *.
  assert (H1 : 1 <= x / 2 ^ 32) by (apply Z.div_le_lower_bound; lia).
  assert (H2 : x mod 2 ^ 32 <= x - 2 ^ 32).
  { rewrite Z.mod_eq by lia. nia. }
  assert (H3 : x mod 2 ^ 32 / 1000 <= (x - 2 ^ 32) / 1000)
    by (apply Z.div_le_mono; lia).
  assert (H4 : (x - 2 ^ 32) / 1000 <= (x + (-4294967) * 1000) / 1000)
    by (apply Z.div_le_mono; lia).
  rewrite Z.div_add in H4 by lia. lia.
Qed.

Lemma reserve_ceiling_mono a b :
  0 <= a <= b -> b * 950 < 2 ^ 32 -> reserve_ceiling a <= reserve_ceiling b.
Proof.
  intros Hab Hb. unfold reserve_ceiling, uint_wrap.
  rewrite !Z.mod_small by lia. apply Z.div_le_mono; lia.
Qed.

(** X8.  The ceiling a successful [thread_pool_min] update installs never
    exceeds 4294967, and once [m * 950] reaches [2^32] (from
    [m = 4521019] on) it is strictly below the floor of [0.95 * m]: the
    product has wrapped around. *)
Theorem reserve_ceiling_overflow (st st' : state) (par : parspec) (m : Z) :
  table_ok (parspecs st) ->
  mcf_findpar "thread_pool_min" (parspecs st) = Some par ->
  tweak_thread_pool_min par (UInt m) st = (0, st') ->
  limit_max "thread_pool_reserve" st' = Some (UInt (reserve_ceiling m)) /\
  reserve_ceiling m <= 4294967 /\
  (4521019 <= m -> reserve_ceiling m < m * 950 / 1000).
Proof.
  intros Hok Hp Hcall.
  destruct (entry_thread_pool_min _ Hok) as (p & Hp' & _ & Hd & _).
  rewrite Hp in Hp'. injection Hp' as <-.
  destruct (tweak_thread_pool_min_inv _ _ _ _ _ Hcall)
    as [[? _]|[_ (u & [= <-] & _ & ->)]]; [discriminate|].
  split; [apply (after_min_limits par m st Hok Hd)|].
  split; [apply reserve_ceiling_bound|].
  intros Hbig. apply reserve_ceiling_wrapped. lia.
Qed.

Lemma reserve_ceiling_overflow_witness :
  exists par st',
    table_ok (parspecs st_wide) /\
    mcf_findpar "thread_pool_min" (parspecs st_wide) = Some par /\
    tweak_thread_pool_min par (UInt 4521019) st_wide = (0, st') /\
    limit_max "thread_pool_reserve" st' = Some (UInt 0) /\
    reserve_ceiling 4521019 < 4521019 * 950 / 1000.
Proof.
  assert (Hok : table_ok (parspecs st_wide))
    by (apply run_table_ok, pool_inv_default).
  eexists. eexists. split; [exact Hok|].
  split; [reflexivity|]. split; [reflexivity|].
  pose proof (reserve_ceiling_overflow st_wide _ _ 4521019 Hok
                eq_refl eq_refl) as (H1 & _ & H3).
  split; [exact H1 | apply H3; vm_compute; discriminate].
Defined.

(** ** The ceiling follows the minimum *)

Lemma param_set_reserve st par arg :
  table_ok (parspecs st) ->
  mcf_findpar "thread_pool_reserve" (parspecs st) = Some par ->
  param_set "thread_pool_reserve" arg st = tweak_uint par arg st.
Proof.
  intros Hok Hp.
  destruct (entry_thread_pool_reserve _ Hok) as (p & Hp' & Hf & _).
  rewrite Hp in Hp'. injection Hp' as <-.
  unfold param_set. now rewrite Hp, Hf.
Qed.

Lemma param_set_synced param arg st :
  table_ok (parspecs st) -> ceiling_synced st ->
  ceiling_synced (snd (param_set param arg st)).
Proof.
  intros Hok Hs. unfold ceiling_synced in *.
  destruct (string_dec param "thread_pool_min") as [->|Hne].
  - destruct (entry_thread_pool_min _ Hok) as (p & Hp & _ & Hd & _).
    rewrite (param_set_min st p arg Hok Hp).
    destruct (tweak_thread_pool_min p arg st) as [x s] eqn:E.
    destruct (tweak_thread_pool_min_inv _ _ _ _ _ E)
      as [[-> ->]|[_ (u & -> & _ & ->)]]; [exact Hs|].
    simpl snd. rewrite (proj1 (after_min_values p u st Hd)).
    apply (after_min_limits p u st Hok Hd).
  - rewrite (proj1 (param_set_values param arg st Hok) Hne).
    unfold limit_max in *.
    now rewrite param_set_keeps_reserve_entry.
Qed.

(** X9.  The ceiling of the reserve follows the stored minimum: when the
    maximum of [thread_pool_reserve] is the ceiling computed from
    [min_threads], it still is after every sequence of updates, failed
    ones included. *)
Theorem ceiling_stays_synced (st : state) (reqs : list (string * pval)) :
  table_ok (parspecs st) -> ceiling_synced st ->
  ceiling_synced (run reqs st).
Proof.
  revert st. induction reqs as [|[param arg] tl IH]; intros st Hok Hs;
    simpl; [exact Hs|].
  apply IH; [now apply param_set_table_ok | now apply param_set_synced].
Qed.

Lemma ceiling_stays_synced_witness :
  table_ok (parspecs st_default) /\ ceiling_synced st_default /\
  ceiling_synced
    (run [("thread_pool_min", UInt 5001); ("thread_pool_max", UInt 400);
          ("thread_pool_min", UInt 300); ("thread_pool_reserve", UInt 20)]
       st_default).
Proof.
  split; [apply pool_inv_default|]. split; [reflexivity|].
  apply ceiling_stays_synced; [apply pool_inv_default | reflexivity].
Defined.

(** X10.  A reserve that respects its ceiling keeps doing so across every
    update, with one exception: a [thread_pool_min] update that lowers the
    minimum, or takes it to where [min * 950] wraps around. *)
Theorem reserve_stays_valid (st : state) (param : string) (arg : pval) :
  table_ok (parspecs st) -> 0 <= min_threads st -> reserve_valid st ->
  (forall u, param = "thread_pool_min" -> arg = UInt u ->
     min_threads st <= u /\ u * 950 < 2 ^ 32) ->
  reserve_valid (snd (param_set param arg st)).
Proof.
  intros Hok Hpos [Hs Hr] Hup.
  split; [now apply param_set_synced|].
  destruct (string_dec param "thread_pool_min") as [->|Hne].
  - destruct (entry_thread_pool_min _ Hok) as (p & Hp & _ & Hd & _).
    rewrite (param_set_min st p arg Hok Hp).
    destruct (tweak_thread_pool_min p arg st) as [x s] eqn:E.
    destruct (tweak_thread_pool_min_inv _ _ _ _ _ E)
      as [[-> ->]|[_ (u & -> & _ & ->)]]; [exact Hr|].
    simpl snd. destruct (after_min_values p u st Hd) as (V1 & _ & V3 & _).
    rewrite V1, V3. destruct (Hup u eq_refl eq_refl) as [Hle Hsmall].
    pose proof (reserve_ceiling_mono (min_threads st) u
                  ltac:(lia) Hsmall). lia.
  - rewrite (proj1 (param_set_values param arg st Hok) Hne).
    destruct (string_dec param "thread_pool_reserve") as [->|Hnr].
    + destruct (entry_thread_pool_reserve _ Hok) as (p & Hp & _ & Hd & _).
      rewrite (param_set_reserve st p arg Hok Hp).
      destruct (tweak_uint p arg st) as [x s] eqn:E.
      destruct (tweak_uint_inv _ _ _ _ _ E)
        as [[-> ->]|[_ (r & -> & Ha & ->)]]; [exact Hr|].
      unfold reserve. simpl. rewrite Hd, store_int_reserve.
      apply (accepts_below p); [exact Ha|].
      unfold ceiling_synced, limit_max in Hs. now rewrite Hp in Hs.
    + now rewrite (proj1 (proj2 (proj2
                     (param_set_values param arg st Hok))) Hnr).
Qed.

Lemma reserve_stays_valid_witness :
  table_ok (parspecs st_reserve_90) /\ 0 <= min_threads st_reserve_90 /\
  reserve_valid st_reserve_90 /\
  reserve_valid (snd (param_set "thread_pool_min" (UInt 120) st_reserve_90)).
Proof.
  assert (Hv : reserve_valid st_reserve_90)
    by (split; [reflexivity | vm_compute; discriminate]).
  split; [apply pool_inv_reserve_90|].
  split; [vm_compute; discriminate|]. split; [exact Hv|].
  apply reserve_stays_valid;
    [apply pool_inv_reserve_90 | vm_compute; discriminate | exact Hv |].
  intros u _ [= <-]. vm_compute. split; [discriminate | reflexivity].
Defined.

(** X11.  No sequence of updates changes a limit that the table does not
    announce as dynamic: the minimum 5 of [thread_pool_min], the minimum 1
    of [thread_pools], the absent maximum of [thread_pool_max], the absent
    minimum of [thread_pool_reserve] and the limits of the three delays
    stay as written. *)
Theorem static_limits_are_fixed (st : state) (reqs : list (string * pval)) :
  table_ok (parspecs st) ->
  table_ok (parspecs (run reqs st)) /\
  limit_min "thread_pool_min" (run reqs st) = Some (UInt 5) /\
  limit_min "thread_pools" (run reqs st) = Some (UInt 1) /\
  limit_max "thread_pool_max" (run reqs st) = None /\
  limit_min "thread_pool_reserve" (run reqs st) = None /\
  (limit_min "thread_pool_destroy_delay" (run reqs st) = Some (Dur (1 # 100))
   /\ limit_max "thread_pool_destroy_delay" (run reqs st) = None) /\
  (limit_min "thread_pool_add_delay" (run reqs st) = Some (Dur 0)
   /\ limit_max "thread_pool_add_delay" (run reqs st) = None) /\
  (limit_min "thread_pool_fail_delay" (run reqs st) = Some (Dur (10 # 1000))
   /\ limit_max "thread_pool_fail_delay" (run reqs st) = None).
Proof.
  intros Hok. pose proof (run_table_ok reqs st Hok) as Hok'.
  split; [exact Hok'|]. unfold limit_min, limit_max.
  destruct (entry_thread_pool_min _ Hok') as (p1 & -> & _ & _ & ->).
  destruct (entry_thread_pools _ Hok') as (p2 & -> & _ & _ & ->).
  destruct (entry_thread_pool_max _ Hok') as (p3 & -> & _ & _ & ->).
  destruct (entry_thread_pool_reserve _ Hok') as (p4 & -> & _ & _ & ->).
  destruct (entry_delay _ "thread_pool_destroy_delay" _ Hok' eq_refl
              eq_refl eq_refl eq_refl) as (p5 & -> & _ & _ & -> & ->).
  destruct (entry_delay _ "thread_pool_add_delay" _ Hok' eq_refl
              eq_refl eq_refl eq_refl) as (p6 & -> & _ & _ & -> & ->).
  destruct (entry_delay _ "thread_pool_fail_delay" _ Hok' eq_refl
              eq_refl eq_refl eq_refl) as (p7 & -> & _ & _ & -> & ->).
  simpl. repeat split; reflexivity.
Qed.

Lemma static_limits_are_fixed_witness :
  table_ok (parspecs st_zero) /\
  limit_min "thread_pool_min"
    (run [("thread_pool_max", UInt 3); ("thread_pool_min", UInt 5);
          ("thread_pool_max", UInt 800); ("thread_pool_min", UInt 700)]
       st_zero) = Some (UInt 5).
Proof.
  split; [exact table_ok_WRK|].
  apply (static_limits_are_fixed st_zero _ table_ok_WRK).
Defined.

(** X12.  Each of the four pool values changes only through the parameter
    of its own name, and the table only through [thread_pool_min] and
    [thread_pool_max]: a sequence of updates that does not name a
    parameter leaves its stored value as it was, and one that names
    neither of the two leaves every limit as it was. *)
Theorem untouched_without_own_request (st : state)
    (reqs : list (string * pval)) :
  table_ok (parspecs st) ->
  (~ In "thread_pool_min" (map fst reqs) ->
   min_threads (run reqs st) = min_threads st) /\
  (~ In "thread_pool_max" (map fst reqs) ->
   max_threads (run reqs st) = max_threads st) /\
  (~ In "thread_pool_reserve" (map fst reqs) ->
   reserve (run reqs st) = reserve st) /\
  (~ In "thread_pools" (map fst reqs) ->
   pool_count (run reqs st) = pool_count st) /\
  (~ In "thread_pool_min" (map fst reqs) ->
   ~ In "thread_pool_max" (map fst reqs) ->
   parspecs (run reqs st) = parspecs st).
Proof.
  revert st. induction reqs as [|[param arg] tl IH]; intros st Hok.
  - simpl. repeat split; reflexivity.
  - simpl run. simpl map.
    destruct (param_set_values param arg st Hok)
      as (V1 & V2 & V3 & V4 & V5).
    destruct (IH _ (param_set_table_ok param arg st Hok))
      as (I1 & I2 & I3 & I4 & I5).
    repeat split; intros.
    + rewrite I1, V1; simpl in *; intuition congruence.
    + rewrite I2, V2; simpl in *; intuition congruence.
    + rewrite I3, V3; simpl in *; intuition congruence.
    + rewrite I4, V4; simpl in *; intuition congruence.
    + rewrite I5, V5; simpl in *; intuition congruence.
Qed.

Lemma untouched_without_own_request_witness :
  table_ok (parspecs st_reserve_90) /\
  ~ In "thread_pool_reserve"
       (map fst [("thread_pool_min", UInt 10); ("thread_pools", UInt 4)]) /\
  reserve (run [("thread_pool_min", UInt 10); ("thread_pools", UInt 4)]
             st_reserve_90) = reserve st_reserve_90.
Proof.
  assert (Hn : ~ In "thread_pool_reserve"
                 (map fst [("thread_pool_min", UInt 10);
                           ("thread_pools", UInt 4)]))
    by (simpl; intros [H|[H|[]]]; discriminate).
  split; [apply pool_inv_reserve_90|]. split; [exact Hn|].
  apply (untouched_without_own_request st_reserve_90 _
           (proj1 pool_inv_reserve_90)).
  exact Hn.
Defined.
